(** * World-Radio: the station cache, the directory client and the playback
    session of [radioglobe_core.py]

    A shallow embedding of class [RadioGlobeCore].  Python dictionaries are
    finite maps from field names to values, the [stations] table of
    [radio_cache.db] is the list of its rows in rowid order, and the methods
    are computations in a state-and-exception monad over the objects they
    touch: the cache file, the clock, the directory service and the log for
    the cache methods, the VLC player for the playback methods. *)

From Stdlib Require Import ZArith Lia.
From stdpp Require Import base gmap strings list pretty.

Open Scope Z_scope.

(** ** Python values and dictionaries *)

(** The values that occur in a station record and in a database row:
    [None] (JSON null, SQL NULL), strings, numbers, and the timestamp of a
    row.  A timestamp is a count of microseconds; the text that [sqlite3]
    stores for a [datetime] orders the same way. *)
Inductive pyval :=
  | PNone
  | PStr (s : string)
  | PNum (n : Z)
  | PTime (t : Z).

#[export] Instance pyval_eq_dec : EqDecision pyval.
Proof. solve_decision. Defined.

Abbreviation dict := (gmap string pyval).

(** [d.get(k)]: the value under [k], [None] when the key is absent. *)
Definition dict_get (d : dict) (k : string) : pyval := default PNone (d !! k).

(** ** Exceptions, outcomes and the monad *)

(** The exceptions the libraries raise; every one is a subclass of
    [Exception]. *)
Inductive exn :=
  | ConnectionError
  | Timeout
  | HTTPError
  | JSONDecodeError
  | OperationalError
  | DatabaseError
  | AttributeError
  | VLCException
  | OverflowError.

Inductive outcome (A : Type) :=
  | Ret (a : A)
  | Raise (e : exn).
Arguments Ret {A} a.
Arguments Raise {A} e.

(** A method is a function from the state it runs in to its outcome and the
    state it leaves. *)
Definition M (S A : Type) : Type := S → outcome A * S.

#[export] Instance M_ret {S} : MRet (M S) := λ A a s, (Ret a, s).

#[export] Instance M_bind {S} : MBind (M S) := λ A B f m s,
  match m s with
  | (Ret a, s') => f a s'
  | (Raise e, s') => (Raise e, s')
  end.

Definition raise {S A} (e : exn) : M S A := λ s, (Raise e, s).

Definition gets {S A} (f : S → A) : M S A := λ s, (Ret (f s), s).

Definition modify {S} (f : S → S) : M S unit := λ s, (Ret tt, f s).

(** [if b: m]. *)
Definition when {S} (b : bool) (m : M S unit) : M S unit :=
  if b then m else mret tt.

(** [try: body except Exception as e: handler e]. *)
Definition try_except {S A} (body : M S A) (handler : exn → M S A) : M S A :=
  λ s, match body s with
       | (Ret a, s') => (Ret a, s')
       | (Raise e, s') => handler e s'
       end.

(** [try: body finally: cleanup], the shape of a [with] block. *)
Definition finally {S A} (body : M S A) (cleanup : S → S) : M S A :=
  λ s, let '(r, s') := body s in (r, cleanup s').

(** ** The cache table *)

(** One row of [stations], in the column order of [_init_cache_db]. *)
Record row := Row {
  r_id : pyval;
  r_name : pyval;
  r_url : pyval;
  r_country : pyval;
  r_code : pyval;
  r_tags : pyval;
  r_homepage : pyval;
  r_lat : pyval;
  r_lon : pyval;
  r_last_updated : Z
}.

#[export] Instance row_eq_dec : EqDecision row.
Proof. solve_decision. Defined.

(** The rows of the table in rowid order. *)
Abbreviation table := (list row).


(** [dict(row)] for a [sqlite3.Row] of [SELECT *]. *)
Definition dict_of_row (r : row) : dict :=
  list_to_map
    [("id", r_id r); ("name", r_name r); ("url", r_url r);
     ("country", r_country r); ("code", r_code r); ("tags", r_tags r);
     ("homepage", r_homepage r); ("lat", r_lat r); ("lon", r_lon r);
     ("last_updated", PTime (r_last_updated r))]%string.

(** *** Binding and storing the values of a tuple

    [sqlite3] binds [None] as NULL, a string as TEXT, a [datetime] as the
    text of its adapter and an [int] as a 64-bit INTEGER; an [int] outside
    64 bits does not bind, the call raises [OverflowError]. *)
Definition binds (v : pyval) : bool :=
  match v with
  | PNum n => bool_decide (- 2 ^ 63 ≤ n < 2 ^ 63)
  | _ => true
  end.

(** Whether the nine values a tuple takes from a station bind; its tenth is
    a [datetime]. *)
Definition row_binds (r : row) : bool :=
  forallb binds
    [r_id r; r_name r; r_url r; r_country r; r_code r; r_tags r; r_homepage r;
     r_lat r; r_lon r].

(** A column declared TEXT stores an integer as its decimal text; NULL and
    text are stored as they are. *)
Definition text_affinity (v : pyval) : pyval :=
  match v with
  | PNum n => PStr (pretty n)
  | _ => v
  end.

(** The row the table holds for a tuple: the seven TEXT columns take the
    TEXT affinity.  [lat] and [lon] are declared REAL and hold the number
    they are given as a float; the row keeps for them the value of the
    tuple, and what REAL affinity makes of it (of text that spells a number,
    of an integer no float holds) is not described. *)
Definition stored (r : row) : row :=
  {| r_id := text_affinity (r_id r);
     r_name := text_affinity (r_name r);
     r_url := text_affinity (r_url r);
     r_country := text_affinity (r_country r);
     r_code := text_affinity (r_code r);
     r_tags := text_affinity (r_tags r);
     r_homepage := text_affinity (r_homepage r);
     r_lat := r_lat r;
     r_lon := r_lon r;
     r_last_updated := r_last_updated r |}.

(** The key of [id TEXT PRIMARY KEY]: the id as the column stores it. *)
Definition id_key (r : row) : pyval := text_affinity (r_id r).

(** A new row conflicts with a stored row of the same key.  The column is
    not declared [NOT NULL] and is not an integer key, so SQLite stores NULL
    in it, and a NULL id conflicts with no row. *)
Definition conflicts (new old : row) : Prop :=
  id_key new ≠ PNone ∧ id_key old = id_key new.

#[export] Instance conflicts_dec new old : Decision (conflicts new old).
Proof. unfold conflicts. apply _. Defined.

(** [INSERT OR REPLACE INTO stations VALUES (...)] for one tuple: the rows
    in conflict are deleted and the row of the tuple is added under a new
    rowid, after all the others. *)
Definition insert_or_replace (t : table) (new : row) : table :=
  filter (λ old, ¬ conflicts new old) t ++ [stored new].

(** The statement once per parameter tuple, in order: what [executemany]
    does with tuples that all bind. *)
Definition executemany_insert (rows : list row) (t : table) : table :=
  foldl insert_or_replace t rows.

(** [executemany]: each tuple in turn is bound and the statement run with
    it.  At a tuple that does not bind the call raises, and the rows written
    for the tuples before it stay. *)
Fixpoint executemany_bind (rows : list row) (t : table) : outcome unit * table :=
  match rows with
  | [] => (Ret tt, t)
  | r :: rest =>
      if row_binds r then executemany_bind rest (insert_or_replace t r)
      else (Raise OverflowError, t)
  end.

(** [SELECT * FROM stations WHERE country = ? AND last_updated > ?]. *)
Definition select_fresh (country : string) (bound : Z) (t : table) : table :=
  filter (λ r, r_country r = PStr country ∧ bound < r_last_updated r) t.

(** The tuple [_cache_stations] binds for station [s] at clock reading
    [now]. *)
Definition station_row (s : dict) (now : Z) : row :=
  {| r_id := dict_get s "stationuuid";
     r_name := dict_get s "name";
     r_url := dict_get s "url";
     r_country := dict_get s "country";
     r_code := dict_get s "countrycode";
     r_tags := dict_get s "tags";
     r_homepage := dict_get s "homepage";
     r_lat := dict_get s "geo_lat";
     r_lon := dict_get s "geo_long";
     r_last_updated := now |}.

(** ** The world of the methods *)

(** The file [radio_cache.db]: a file that cannot be opened, a database
    without a [stations] table, or a database whose [stations] table, with
    the columns of [_init_cache_db], holds the committed rows. *)
Inductive db_file :=
  | DbUnavailable
  | DbNoTable
  | DbStations (t : table).

(** A call of [requests.get] and the response object it returns.  What the
    methods of the response do is the service's to decide: whether
    [raise_for_status] raises, and what [json] returns or raises. *)
Record http_request := HttpRequest {
  rq_url : string;
  rq_params : dict;
  rq_headers : list (string * string);
  rq_timeout : Z
}.

Record http_response := HttpResponse {
  rs_raise_for_status : option exn;
  rs_json : outcome (list dict)
}.

(** A line written by [self.logger.error]: the message prefix and the
    exception it formats. *)
Record log_entry := LogError {
  le_message : string;
  le_exn : exn
}.

(** A media object of [instance.media_new]. *)
Record media := Media {
  m_url : string;
  m_options : list string
}.

(** The calls the playback methods make on the VLC instance and its player. *)
Inductive vlc_call :=
  | IsPlaying
  | Stop
  | MediaNew (url : string)
  | AddOption (opt : string)
  | SetMedia (m : media)
  | AudioSetVolume (v : Z)
  | Play.

(** The VLC instance with the media player made from it.  [vlc_raises] and
    [vlc_play_result] are the engine's to decide: which calls raise, and
    what [play()] returns for the media at a url (0, or -1 on error). *)
Record vlc := Vlc {
  vlc_playing : bool;
  vlc_media : option media;
  vlc_volume : Z;
  vlc_calls : list vlc_call;
  vlc_raises : vlc_call → option exn;
  vlc_play_result : string → Z
}.

Record world := World {
  cache_db : db_file;                        (* committed contents of the file *)
  txn : option table;                        (* open transaction of the connection *)
  clock : nat → Z;                           (* successive readings of datetime.now() *)
  clock_reads : nat;
  directory : http_request → outcome http_response;
  requests_sent : list http_request;
  log : list log_entry;
  volume : Z;                                (* self.volume *)
  player : option vlc                        (* self.player *)
}.

Definition set_cache_db (d : db_file) (w : world) : world :=
  World d (txn w) (clock w) (clock_reads w) (directory w) (requests_sent w)
    (log w) (volume w) (player w).

Definition set_txn (x : option table) (w : world) : world :=
  World (cache_db w) x (clock w) (clock_reads w) (directory w) (requests_sent w)
    (log w) (volume w) (player w).

Definition set_clock_reads (n : nat) (w : world) : world :=
  World (cache_db w) (txn w) (clock w) n (directory w) (requests_sent w)
    (log w) (volume w) (player w).

Definition set_requests_sent (l : list http_request) (w : world) : world :=
  World (cache_db w) (txn w) (clock w) (clock_reads w) (directory w) l
    (log w) (volume w) (player w).

Definition set_log (l : list log_entry) (w : world) : world :=
  World (cache_db w) (txn w) (clock w) (clock_reads w) (directory w)
    (requests_sent w) l (volume w) (player w).

Definition set_volume_attr (v : Z) (w : world) : world :=
  World (cache_db w) (txn w) (clock w) (clock_reads w) (directory w)
    (requests_sent w) (log w) v (player w).

Definition set_player (p : option vlc) (w : world) : world :=
  World (cache_db w) (txn w) (clock w) (clock_reads w) (directory w)
    (requests_sent w) (log w) (volume w) p.

(** [datetime.now()]. *)
Definition datetime_now : M world Z :=
  λ w, (Ret (clock w (clock_reads w)), set_clock_reads (S (clock_reads w)) w).

(** [self.logger.error(f"{msg}: {str(e)}")]. *)
Definition logger_error (msg : string) (e : exn) : M world unit :=
  modify (λ w, set_log (log w ++ [LogError msg e]) w).

(** [requests.get(url, params=..., headers=..., timeout=...)]. *)
Definition requests_get (rq : http_request) : M world http_response :=
  λ w, (directory w rq, set_requests_sent (requests_sent w ++ [rq]) w).

Definition raise_for_status (rs : http_response) : M world unit :=
  match rs_raise_for_status rs with
  | Some e => raise e
  | None => mret tt
  end.

Definition response_json (rs : http_response) : M world (list dict) :=
  λ w, (rs_json rs, w).

(** *** The [sqlite3] connection

    [sqlite3.connect] opens the file.  Before an INSERT or REPLACE the
    module opens a transaction on its own; the rows the statement writes are
    pending in that transaction until [commit].  [close] does not commit:
    a pending transaction is rolled back.  A CREATE TABLE opens no
    transaction and takes effect at once. *)
Definition sqlite3_connect : M world unit :=
  λ w, match cache_db w with
       | DbUnavailable => (Raise OperationalError, w)
       | _ => (Ret tt, set_txn None w)
       end.

(** The table as the connection sees it: the pending one inside a
    transaction, the committed one otherwise. *)
Definition conn_table : M world table :=
  λ w, match txn w with
       | Some t => (Ret t, w)
       | None =>
           match cache_db w with
           | DbStations t => (Ret t, w)
           | DbNoTable => (Raise OperationalError, w)
           | DbUnavailable => (Raise OperationalError, w)
           end
       end.

Definition conn_close (w : world) : world := set_txn None w.

(** [Connection.commit()].  No method of [RadioGlobeCore] calls it. *)
Definition conn_commit : M world unit :=
  λ w, match txn w with
       | Some t => (Ret tt, set_txn None (set_cache_db (DbStations t) w))
       | None => (Ret tt, w)
       end.

(** [with closing(sqlite3.connect(self.cache_file)) as conn: body]. *)
Definition with_closing_connect {A} (body : M world A) : M world A :=
  sqlite3_connect;; finally body conn_close.

Definition conn_executemany_insert (rows : list row) : M world unit :=
  t ← conn_table;
  ((λ w, let '(result, t') := executemany_bind rows t in
         (result, set_txn (Some t') w)) : M world unit).

Definition conn_select_fresh (country : string) (bound : Z) : M world table :=
  t ← conn_table;
  mret (select_fresh country bound t).


(** ** The cache methods of [RadioGlobeCore] *)

Definition api_base : string := "https://de1.api.radio-browser.info/json".

(** [timedelta(hours=6)], in microseconds. *)
Definition cache_expiry : Z := 6 * 3600 * 1000000.


(** The body of the [with] block of [_get_cached_stations]. *)
Definition get_cached_stations_body (country : string) : M world (list dict) :=
  now ← datetime_now;
  rows ← conn_select_fresh country (now - cache_expiry);
  mret (dict_of_row <$> rows).

Definition _get_cached_stations (country : string) : M world (list dict) :=
  with_closing_connect (get_cached_stations_body country).

(** The list comprehension of [_cache_stations]: one clock reading per
    station. *)
Definition bind_rows (stations : list dict) : M world (list row) :=
  mapM (λ s, now ← datetime_now; mret (station_row s now)) stations.

(** The body of the [with] block of [_cache_stations]. *)
Definition cache_stations_body (stations : list dict) : M world unit :=
  rows ← bind_rows stations;
  conn_executemany_insert rows.

Definition _cache_stations (stations : list dict) : M world unit :=
  with_closing_connect (cache_stations_body stations).

(** The query of [get_stations]. *)
Definition search_params (country : string) : dict :=
  list_to_map
    [("country", PStr country); ("hidebroken", PStr "true");
     ("order", PStr "votes"); ("reverse", PStr "true");
     ("limit", PNum 500)]%string.

Definition search_request (country : string) : http_request :=
  {| rq_url := api_base +:+ "/stations/search";
     rq_params := search_params country;
     rq_headers := [("User-Agent", "RadioGlobe/3.0")]%string;
     rq_timeout := 10 |}.

(** The station search of [get_stations]: the request, the status check
    and the decoding of the body. *)
Definition search_stations (country : string) : M world (list dict) :=
  response ← requests_get (search_request country);
  raise_for_status response;;
  response_json response.

(** The [try] block of [get_stations]. *)
Definition get_stations_body (country : string) : M world (list dict * nat) :=
  cached ← _get_cached_stations country;
  match cached with
  | _ :: _ => mret (cached, length cached)
  | [] =>
      stations ← search_stations country;
      _cache_stations stations;;
      mret (stations, length stations)
  end.

Definition get_stations (country : string) : M world (list dict * nat) :=
  try_except (get_stations_body country)
    (λ e, logger_error "Failed to fetch stations" e;; mret ([], 0%nat)).

(** ** The playback methods of [RadioGlobeCore] *)

(** A call on the engine: it is recorded, then it raises if the engine says
    so, and otherwise takes effect and returns.  With no player object the
    attribute access itself raises. *)
Definition vlc_do {A} (c : vlc_call) (effect : vlc → vlc) (result : vlc → A) :
    M world A :=
  λ w, match player w with
       | None => (Raise AttributeError, w)
       | Some p =>
           let p' := Vlc (vlc_playing p) (vlc_media p) (vlc_volume p)
                       (vlc_calls p ++ [c]) (vlc_raises p) (vlc_play_result p) in
           match vlc_raises p c with
           | Some e => (Raise e, set_player (Some p') w)
           | None => (Ret (result p'), set_player (Some (effect p')) w)
           end
       end.

Definition with_playing (b : bool) (p : vlc) : vlc :=
  Vlc b (vlc_media p) (vlc_volume p) (vlc_calls p) (vlc_raises p)
    (vlc_play_result p).

Definition with_media (m : media) (p : vlc) : vlc :=
  Vlc (vlc_playing p) (Some m) (vlc_volume p) (vlc_calls p) (vlc_raises p)
    (vlc_play_result p).

Definition with_volume (v : Z) (p : vlc) : vlc :=
  Vlc (vlc_playing p) (vlc_media p) v (vlc_calls p) (vlc_raises p)
    (vlc_play_result p).

(** What [play()] returns for the media the player holds. *)
Definition play_code (p : vlc) : Z :=
  match vlc_media p with
  | Some m => vlc_play_result p (m_url m)
  | None => -1
  end.

Definition player_is_playing : M world bool :=
  vlc_do IsPlaying (λ p, p) vlc_playing.

Definition player_stop : M world unit :=
  vlc_do Stop (with_playing false) (λ _, tt).

Definition instance_media_new (url : string) : M world media :=
  vlc_do (MediaNew url) (λ p, p) (λ _, Media url []).

Definition media_add_option (m : media) (opt : string) : M world media :=
  vlc_do (AddOption opt) (λ p, p) (λ _, Media (m_url m) (m_options m ++ [opt])).

Definition player_set_media (m : media) : M world unit :=
  vlc_do (SetMedia m) (with_media m) (λ _, tt).

Definition player_audio_set_volume (v : Z) : M world unit :=
  vlc_do (AudioSetVolume v) (with_volume v) (λ _, tt).

Definition player_play : M world Z :=
  vlc_do Play (λ p, with_playing (bool_decide (play_code p = 0)) p) play_code.

Definition play_body (url : string) : M world bool :=
  playing ← player_is_playing;
  when playing player_stop;;
  m ← instance_media_new url;
  m ← media_add_option m "network-caching=3000";
  player_set_media m;;
  v ← gets volume;
  player_audio_set_volume v;;
  rc ← player_play;
  mret (bool_decide (rc = 0)).

Definition play (url : string) : M world bool :=
  try_except (play_body url)
    (λ e, logger_error "Playback failed" e;; mret false).

Definition set_volume (v : Z) : M world unit :=
  if bool_decide (0 ≤ v ≤ 100) then
    modify (set_volume_attr v);;
    p ← gets player;
    match p with
    | Some _ => player_audio_set_volume v
    | None => mret tt
    end
  else mret tt.

Definition stop : M world unit :=
  try_except
    (playing ← player_is_playing;
     when playing player_stop)
    (λ e, logger_error "Stop failed" e).

(** ** Vocabulary of the statements *)

(** The rows [bind_rows] builds when the clock has been read [n] times. *)
Fixpoint stamped (clk : nat → Z) (n : nat) (stations : list dict) : list row :=
  match stations with
  | [] => []
  | s :: rest => station_row s (clk n) :: stamped clk (S n) rest
  end.

(** The freshness test of the lookup, [last_updated > now - cache_expiry]. *)
Definition fresh (now : Z) (r : row) : Prop :=
  now - cache_expiry < r_last_updated r.

(** Freshness in the words of the specification:
    [t - lastUpdated <= expiry]. *)
Definition spec_fresh (t last_updated expiry : Z) : Prop :=
  t - last_updated ≤ expiry.

(** The committed rows of a country, the most any lookup can read. *)
Definition stored_rows (country : string) (w : world) : option table :=
  match cache_db w with
  | DbStations t => Some (filter (λ r, r_country r = PStr country) t)
  | _ => None
  end.

(** The world [w] at a moment when every clock reading is [now]. *)
Definition at_time (now : Z) (w : world) : world :=
  World (cache_db w) (txn w) (λ _, now) 0 (directory w) (requests_sent w)
    (log w) (volume w) (player w).

(** The statements of [_cache_stations] up to, and without, the close. *)
Definition cache_stations_open (stations : list dict) : M world unit :=
  sqlite3_connect;; cache_stations_body stations.

(** The calls [play url] makes on an engine in state [p] when none raises. *)
Definition play_calls (url : string) (v : Z) (p : vlc) : list vlc_call :=
  [IsPlaying] ++ (if vlc_playing p then [Stop] else []) ++
  [MediaNew url; AddOption "network-caching=3000";
   SetMedia (Media url ["network-caching=3000"%string]);
   AudioSetVolume v; Play].


(** ** Example data *)

Definition ghana_fm : dict :=
  list_to_map
    [("stationuuid", PStr "9617a958-0601-11e8-ae97-52543be04c81");
     ("name", PStr "Ghana FM"); ("url", PStr "http://stream.example/ghana");
     ("country", PStr "Ghana"); ("countrycode", PStr "GH");
     ("tags", PStr "news,talk"); ("homepage", PNone);
     ("geo_lat", PNone); ("geo_long", PNone);
     ("bitrate", PNum 128); ("votes", PNum 7)]%string.

(** A record of the directory without [stationuuid]. *)
Definition nameless_fm : dict :=
  list_to_map
    [("name", PStr "Accra Waves"); ("url", PStr "http://stream.example/accra");
     ("country", PStr "Ghana"); ("countrycode", PStr "GH");
     ("bitrate", PNum 64); ("votes", PNum 1)]%string.

(** A directory that answers every search with [stations]. *)
Definition serving (stations : list dict) : http_request → outcome http_response :=
  λ _, Ret (HttpResponse None (Ret stations)).

(** A directory every request to which raises [e]. *)
Definition failing (e : exn) : http_request → outcome http_response :=
  λ _, Raise e.

Definition idle_player : vlc := Vlc false None 0 [] (λ _, None) (λ _, 0).

(** A world just after [__init__]: cache file [db], directory [dir], a clock
    that reads [now] and then a microsecond more at each reading. *)
Definition world_of (db : db_file)
    (dir : http_request → outcome http_response) (now : Z) : world :=
  World db None (λ n, now + Z.of_nat n) 0 dir [] [] 70 (Some idle_player).

(** The row of [ghana_fm] written at time [t0]. *)
Definition ghana_row (t0 : Z) : row := station_row ghana_fm t0.

(** An engine whose [play()] reports an error for every media, raising
    nothing. *)
Definition refusing_player : vlc := Vlc false None 0 [] (λ _, None) (λ _, -1).

(** An engine that is playing and whose [set_media] raises. *)
Definition faulty_player : vlc :=
  Vlc true None 0 []
    (λ c, match c with SetMedia _ => Some VLCException | _ => None end)
    (λ _, 0).

Definition with_player (p : vlc) (w : world) : world := set_player (Some p) w.

(** Whether the values [_cache_stations] takes from a record bind. *)
Definition station_binds (s : dict) : bool := row_binds (station_row s 0).



(** A row without its coordinates: the TEXT columns and the time of the
    write. *)
Definition without_coordinates (r : row) : row :=
  Row (r_id r) (r_name r) (r_url r) (r_country r) (r_code r) (r_tags r)
    (r_homepage r) PNone PNone (r_last_updated r).




(** A stored row survives a batch when no row of the batch conflicts with
    it. *)
Definition survives (rows : list row) (r : row) : Prop :=
  Forall (λ new, ¬ conflicts new r) rows.

(** The rows of a batch that no later row of the batch replaces. *)
Fixpoint lasts (rows : list row) : list row :=
  match rows with
  | [] => []
  | r :: rest => (if decide (survives rest r) then [r] else []) ++ lasts rest
  end.

(** ** The other methods of [RadioGlobeCore] and the station browser *)

From Stdlib Require Import Sorted.

(** *** [sorted(..., key=...)]

    [sorted] is stable and ascending.  It computes the key of every element
    first and compares the keys afterwards.  The keys of a list it can sort
    are all strings, all numbers or all timestamps: Python orders strings by
    code point, which is the byte order of their UTF-8 text, and refuses to
    order [None] with anything or values of two of these kinds with each
    other. *)
Definition key_le (a b : pyval) : bool :=
  match a, b with
  | PStr s, PStr t => String.leb s t
  | PNum m, PNum n => m <=? n
  | PTime m, PTime n => m <=? n
  | _, _ => false
  end.

Definition is_str (v : pyval) : bool := if v is PStr _ then true else false.
Definition is_num (v : pyval) : bool := if v is PNum _ then true else false.
Definition is_time (v : pyval) : bool := if v is PTime _ then true else false.

(** Whether [sorted] gets through the keys without a [TypeError]: a list of
    fewer than two elements needs no comparison, a longer one compares every
    key with another. *)
Definition comparable (keys : list pyval) : bool :=
  match keys with
  | [] | [_] => true
  | _ => forallb is_str keys || forallb is_num keys || forallb is_time keys
  end.

(** Insertion before the first element that is not smaller: an element comes
    before the later elements of the same key. *)
Fixpoint insert_by {A} (le : A → A → bool) (x : A) (l : list A) : list A :=
  match l with
  | [] => [x]
  | y :: rest => if le x y then x :: y :: rest else y :: insert_by le x rest
  end.

Definition sort_by {A} (le : A → A → bool) (l : list A) : list A :=
  foldr (insert_by le) [] l.

(** The order [key=lambda x: x['name']] puts on records that have a name. *)
Definition name_le (x y : dict) : bool :=
  key_le (dict_get x "name") (dict_get y "name").

(** A computation that is done with outcome [o]. *)
Definition done_with {S A} (o : outcome A) : M S A := λ s, (o, s).

Section BuiltinExceptions.

(** [KeyError] and [TypeError] of the built-ins stand outside the
    enumeration of the library exceptions; the methods that can raise them
    take them as parameters. *)
Variables KeyError TypeError : exn.

(** [x[k]] on a dictionary. *)
Definition subscript {S} (x : dict) (k : string) : M S pyval :=
  match x !! k with
  | Some v => mret v
  | None => raise KeyError
  end.

(** [sorted(l, key=lambda x: x['name'])]. *)
Definition sorted_by_name (l : list dict) : outcome (list dict) :=
  match mapM (λ x : dict, x !! "name"%string) l with
  | None => Raise KeyError
  | Some keys => if comparable keys then Ret (sort_by name_le l) else Raise TypeError
  end.

(** *** [get_countries] *)

Definition countries_request : http_request :=
  {| rq_url := api_base +:+ "/countries";
     rq_params := ∅;
     rq_headers := [("User-Agent", "RadioGlobe/3.0")]%string;
     rq_timeout := 5 |}.

(** The [try] block of [get_countries]. *)
Definition get_countries_body : M world (list dict) :=
  response ← requests_get countries_request;
  raise_for_status response;;
  countries ← response_json response;
  done_with (sorted_by_name countries).

Definition get_countries : M world (list dict) :=
  try_except get_countries_body
    (λ e, logger_error "Failed to fetch countries" e;; mret []).

(** *** [StationBrowser.load_stations] *)

(** The text of an item of the list: the placeholder, or the line made of
    the name, the bitrate and the votes of a station. *)
Inductive label :=
  | NoStationsFound
  | StationLine (name bitrate votes : pyval).

Record list_item := ListItem {
  item_label : label;
  item_enabled : bool;
  item_data : option dict               (* the data under [Qt.UserRole] *)
}.

(** The item the loop of [load_stations] adds for [station]. *)
Definition station_item (station : dict) : M (list list_item) list_item :=
  name ← subscript station "name";
  mret (ListItem
          (StationLine name
             (default (PStr "?") (station !! "bitrate"%string))
             (default (PNum 0) (station !! "votes"%string)))
          true (Some station)).

Fixpoint add_station_items (stations : list dict) : M (list list_item) unit :=
  match stations with
  | [] => mret tt
  | station :: rest =>
      item ← station_item station;
      modify (λ items, items ++ [item]);;
      add_station_items rest
  end.

(** [load_stations], on the items of the list widget. *)
Definition load_stations (stations : list dict) : M (list list_item) unit :=
  modify (λ _, []);;
  match stations with
  | [] => modify (λ items, items ++ [ListItem NoStationsFound false None])
  | _ :: _ => add_station_items stations
  end.

(** *** [RadioGlobeApp.on_country_selected] *)

(** The window: the core and the items of its station browser. *)
Record radio_globe_app := RadioGlobeApp {
  core : world;
  station_browser : list list_item
}.

Definition on_core {A} (m : M world A) : M radio_globe_app A :=
  λ a, let '(r, w) := m (core a) in (r, RadioGlobeApp w (station_browser a)).

Definition on_browser {A} (m : M (list list_item) A) : M radio_globe_app A :=
  λ a, let '(r, items) := m (station_browser a) in (r, RadioGlobeApp (core a) items).

Definition on_country_selected (country : string) : M radio_globe_app unit :=
  result ← on_core (get_stations country);
  on_browser (load_stations result.1).

End BuiltinExceptions.

(** *** Vocabulary of the further statements *)

(** The primary key holds: no two rows share an id that is not NULL. *)
Definition unique_ids (t : table) : Prop :=
  ∀ x, x ≠ PNone → (length (filter (λ r, r_id r = x) t) ≤ 1)%nat.

(** The world after [get_stations] for each country of a list in turn. *)
Definition after_get_stations (countries : list string) (w : world) : world :=
  foldl (λ w country, (get_stations country w).2) w countries.

(** The order of the names of two records, both strings. *)
Definition name_order (x y : dict) : Prop :=
  ∃ s t, x !! "name"%string = Some (PStr s) ∧ y !! "name"%string = Some (PStr t) ∧
         String.leb s t = true.

(** What the cache methods read and write of the world, and what the
    playback methods do. *)
Definition cache_side (w : world) :=
  (cache_db w, txn w, clock w, clock_reads w, directory w, requests_sent w).

Definition playback_side (w : world) := (volume w, player w).

(** A computation that leaves the cache side alone. *)
Definition keeps_cache_side {A} (m : M world A) : Prop :=
  ∀ w, cache_side (m w).2 = cache_side w.

(** A computation whose outcome and whose effect on the playback side
    depend on the playback side only. *)
Definition playback_only {A} (m : M world A) : Prop :=
  ∀ w1 w2, playback_side w1 = playback_side w2 →
    (m w1).1 = (m w2).1 ∧ playback_side (m w1).2 = playback_side (m w2).2.

(** The line of the station browser for a station that has a name. *)
Definition station_line (station : dict) : list_item :=
  ListItem
    (StationLine (dict_get station "name")
       (default (PStr "?") (station !! "bitrate"%string))
       (default (PNum 0) (station !! "votes"%string)))
    true (Some station).

(** Whether a record has the name [k]. *)
Definition has_name (k : pyval) (x : dict) : Prop := dict_get x "name" = k.

#[export] Instance has_name_dec k x : Decision (has_name k x).
Proof. unfold has_name. apply _. Defined.

(** Example data: three countries of the directory, out of order. *)
Definition country_record (name : string) (count : Z) : dict :=
  list_to_map [("name", PStr name); ("stationcount", PNum count)]%string.

Definition three_countries : list dict :=
  [country_record "Ghana" 120; country_record "Chile" 300;
   country_record "Fiji" 8].

(** ** Running the cache methods *)

Ltac run := unfold mbind, M_bind, mret, M_ret, modify, gets, raise; simpl.

Lemma bind_rows_run (stations : list dict) (w : world) :
  bind_rows stations w =
    (Ret (stamped (clock w) (clock_reads w) stations),
     set_clock_reads (clock_reads w + length stations) w).
Proof.
  revert w. induction stations as [|s rest IH]; intros w.
  - unfold bind_rows; simpl. run. rewrite Nat.add_0_r. by destruct w.
  - unfold bind_rows in *. simpl. unfold mbind at 1, M_bind.
    unfold mbind at 1, M_bind, datetime_now. simpl.
    unfold mbind at 1, M_bind. rewrite IH. simpl. run.
    rewrite Nat.add_succ_r. by destruct w.
Qed.

Lemma sqlite3_connect_run (w : world) (t : table) :
  cache_db w = DbStations t → sqlite3_connect w = (Ret tt, set_txn None w).
Proof. intros H. unfold sqlite3_connect. by rewrite H. Qed.

(** *** The binding of a batch *)

Lemma row_binds_stamped (clk : nat → Z) (n : nat) (stations : list dict) :
  forallb row_binds (stamped clk n stations) = forallb station_binds stations.
Proof.
  revert n. induction stations as [|s rest IH]; intros n; [done|].
  cbn [stamped forallb]. by rewrite IH.
Qed.

Lemma executemany_insert_app (rows1 rows2 : list row) (t : table) :
  executemany_insert (rows1 ++ rows2) t =
    executemany_insert rows2 (executemany_insert rows1 t).
Proof. unfold executemany_insert. by rewrite foldl_app. Qed.

Lemma executemany_insert_cons (r : row) (rows : list row) (t : table) :
  executemany_insert (r :: rows) t =
    executemany_insert rows (insert_or_replace t r).
Proof. reflexivity. Qed.

(** When every tuple binds, [executemany] is the statement once per tuple. *)
Lemma executemany_bind_all (rows : list row) (t : table) :
  forallb row_binds rows = true →
  executemany_bind rows t = (Ret tt, executemany_insert rows t).
Proof.
  revert t. induction rows as [|r rows IH]; intros t H; [done|].
  cbn [forallb] in H. apply andb_true_iff in H as [Hr Hrows].
  cbn [executemany_bind]. rewrite Hr, executemany_insert_cons. by apply IH.
Qed.


Lemma executemany_bind_result (rows : list row) (t : table) :
  (executemany_bind rows t).1 =
    if forallb row_binds rows then Ret tt else Raise OverflowError.
Proof.
  revert t. induction rows as [|r rows IH]; intros t; [done|].
  cbn [executemany_bind forallb]. destruct (row_binds r); [apply IH|done].
Qed.

(** A record that does not bind splits a batch at its first occurrence. *)
Lemma first_not_binding (stations : list dict) :
  forallb station_binds stations = false →
  ∃ before s after, stations = before ++ s :: after ∧
    forallb station_binds before = true ∧ station_binds s = false.
Proof.
  induction stations as [|s rest IH]; [done|]. cbn [forallb].
  destruct (station_binds s) eqn:Hs.
  - intros H. destruct (IH H) as (before & s' & after & -> & Hb & Hs').
    exists (s :: before), s', after. repeat split; [|done].
    cbn [forallb]. by rewrite Hs, Hb.
  - intros _. by exists [], s, rest.
Qed.


(** *** The methods that write *)

Lemma cache_stations_body_run (stations : list dict) (w : world) (t : table) :
  txn w = Some t ∨ (txn w = None ∧ cache_db w = DbStations t) →
  cache_stations_body stations w =
    ((executemany_bind (stamped (clock w) (clock_reads w) stations) t).1,
     set_txn
       (Some (executemany_bind (stamped (clock w) (clock_reads w) stations) t).2)
       (set_clock_reads (clock_reads w + length stations) w)).
Proof.
  intros H. unfold cache_stations_body.
  unfold mbind at 1, M_bind. rewrite bind_rows_run.
  unfold conn_executemany_insert, conn_table. run.
  destruct H as [H|[H1 H2]].
  - rewrite H.
    by destruct (executemany_bind (stamped (clock w) (clock_reads w) stations) t).
  - rewrite H1, H2.
    by destruct (executemany_bind (stamped (clock w) (clock_reads w) stations) t).
Qed.

Lemma cache_stations_open_run (stations : list dict) (w : world) (t : table) :
  cache_db w = DbStations t →
  cache_stations_open stations w =
    ((executemany_bind (stamped (clock w) (clock_reads w) stations) t).1,
     set_txn
       (Some (executemany_bind (stamped (clock w) (clock_reads w) stations) t).2)
       (set_clock_reads (clock_reads w + length stations) w)).
Proof.
  intros H. unfold cache_stations_open.
  unfold mbind at 1, M_bind. rewrite (sqlite3_connect_run w t H).
  rewrite (cache_stations_body_run stations (set_txn None w) t); [done|].
  right. by split.
Qed.

Lemma _cache_stations_run (stations : list dict) (w : world) :
  _cache_stations stations w =
    match cache_db w with
    | DbUnavailable => (Raise OperationalError, w)
    | DbNoTable =>
        (Raise OperationalError,
         set_txn None (set_clock_reads (clock_reads w + length stations) w))
    | DbStations _ =>
        (if forallb station_binds stations then Ret tt else Raise OverflowError,
         set_txn None (set_clock_reads (clock_reads w + length stations) w))
    end.
Proof.
  unfold _cache_stations, with_closing_connect, finally.
  unfold mbind at 1, M_bind, sqlite3_connect.
  destruct (cache_db w) as [| |t] eqn:H; [done| |].
  - unfold cache_stations_body.
    unfold mbind at 1, M_bind. rewrite bind_rows_run. simpl.
    unfold conn_executemany_insert, conn_table. run. by rewrite H.
  - rewrite (cache_stations_body_run stations (set_txn None w) t)
      by (right; by split).
    simpl. by rewrite executemany_bind_result, row_binds_stamped.
Qed.


(** With a [commit] before the close the rows of a batch that binds would be
    in the file; [_cache_stations] has none. *)
Lemma commit_would_store (stations : list dict) (w : world) (t : table) :
  cache_db w = DbStations t →
  forallb station_binds stations = true →
  cache_db ((cache_stations_open stations;; conn_commit) w).2 =
    DbStations (executemany_insert (stamped (clock w) (clock_reads w) stations) t).
Proof.
  intros H Hb. unfold mbind, M_bind.
  rewrite (cache_stations_open_run _ _ _ H).
  rewrite executemany_bind_all by (by rewrite row_binds_stamped).
  done.
Qed.

Lemma _get_cached_stations_run (country : string) (w : world) :
  _get_cached_stations country w =
    match cache_db w with
    | DbUnavailable => (Raise OperationalError, w)
    | DbNoTable =>
        (Raise OperationalError, set_txn None (set_clock_reads (S (clock_reads w)) w))
    | DbStations t =>
        (Ret (dict_of_row <$>
                select_fresh country (clock w (clock_reads w) - cache_expiry) t),
         set_txn None (set_clock_reads (S (clock_reads w)) w))
    end.
Proof.
  unfold _get_cached_stations, with_closing_connect, finally,
    get_cached_stations_body.
  unfold mbind at 1, M_bind, sqlite3_connect.
  destruct (cache_db w) eqn:H; [done| |];
    unfold conn_select_fresh, conn_table, datetime_now; run; by rewrite H.
Qed.

Lemma search_stations_run (country : string) (w : world) :
  search_stations country w =
    (match directory w (search_request country) with
     | Raise e => Raise e
     | Ret rs =>
         match rs_raise_for_status rs with
         | Some e => Raise e
         | None => rs_json rs
         end
     end,
     set_requests_sent (requests_sent w ++ [search_request country]) w).
Proof.
  unfold search_stations, requests_get, raise_for_status, response_json. run.
  destruct (directory w (search_request country)) as [rs|e]; [|done].
  destruct (rs_raise_for_status rs); run; [done|].
  by destruct (rs_json rs).
Qed.

Lemma get_stations_hit (country : string) (w w' : world) (d : dict) (ds : list dict) :
  _get_cached_stations country w = (Ret (d :: ds), w') →
  get_stations country w = (Ret (d :: ds, length (d :: ds)), w').
Proof.
  intros H. unfold get_stations, try_except, get_stations_body.
  unfold mbind at 1, M_bind. by rewrite H.
Qed.

Lemma get_stations_lookup_raises (country : string) (w w' : world) (e : exn) :
  _get_cached_stations country w = (Raise e, w') →
  get_stations country w =
    (Ret ([], 0%nat), set_log (log w' ++ [LogError "Failed to fetch stations" e]) w').
Proof.
  intros H. unfold get_stations, try_except, get_stations_body.
  unfold mbind at 1, M_bind. rewrite H. by run.
Qed.

Lemma get_stations_miss (country : string) (w w' : world) :
  _get_cached_stations country w = (Ret [], w') →
  get_stations country w =
    match search_stations country w' with
    | (Raise e, w2) =>
        (Ret ([], 0%nat),
         set_log (log w2 ++ [LogError "Failed to fetch stations" e]) w2)
    | (Ret stations, w2) =>
        match _cache_stations stations w2 with
        | (Raise e, w3) =>
            (Ret ([], 0%nat),
             set_log (log w3 ++ [LogError "Failed to fetch stations" e]) w3)
        | (Ret _, w3) => (Ret (stations, length stations), w3)
        end
    end.
Proof.
  intros H. unfold get_stations, try_except, get_stations_body.
  unfold mbind at 1, M_bind. rewrite H.
  unfold mbind at 1, M_bind.
  destruct (search_stations country w') as [[stations|e] w2]; [|by run].
  unfold mbind at 1, M_bind.
  destruct (_cache_stations stations w2) as [[[]|e] w3]; by run.
Qed.

(** No call of [get_stations] changes the committed rows of the cache. *)
Lemma get_stations_cache_db (country : string) (w : world) :
  cache_db (get_stations country w).2 = cache_db w.
Proof.
  destruct (_get_cached_stations country w) as [[[|d ds]|e] w'] eqn:H.
  - rewrite (get_stations_miss _ _ _ H).
    assert (cache_db w' = cache_db w) as Hw'.
    { rewrite _get_cached_stations_run in H.
      destruct (cache_db w) eqn:Hdb; simplify_eq; simpl; done. }
    rewrite search_stations_run.
    destruct (directory w' (search_request country)) as [rs|e]; [|by simpl].
    destruct (rs_raise_for_status rs); [by simpl|].
    destruct (rs_json rs) as [stations|e]; [|by simpl].
    rewrite _cache_stations_run. simpl.
    destruct (cache_db w') eqn:Hdb; simpl; [congruence|congruence|].
    destruct (forallb station_binds stations); simpl; congruence.
  - rewrite (get_stations_hit _ _ _ _ _ H). simpl.
    rewrite _get_cached_stations_run in H.
    destruct (cache_db w) eqn:Hdb; simplify_eq; simpl; done.
  - rewrite (get_stations_lookup_raises _ _ _ _ H). simpl.
    rewrite _get_cached_stations_run in H.
    destruct (cache_db w) eqn:Hdb; simplify_eq; simpl; done.
Qed.

Lemma select_fresh_all (country : string) (now : Z) (t : table) :
  (∀ r, r ∈ t → r_country r = PStr country → fresh now r) →
  select_fresh country (now - cache_expiry) t =
    filter (λ r, r_country r = PStr country) t.
Proof.
  unfold select_fresh. induction t as [|r t IH]; intros Hall; [done|].
  rewrite !filter_cons, IH by (intros; apply Hall; [by right|done]).
  destruct (decide (r_country r = PStr country)) as [Hc|Hc].
  - rewrite decide_True; [done|]. split; [done|]. apply Hall; [by left|done].
  - rewrite decide_False; [done|]. by intros [? _].
Qed.

Lemma _get_cached_stations_frame (country : string) (w : world) :
  let w' := (_get_cached_stations country w).2 in
  cache_db w' = cache_db w ∧ directory w' = directory w ∧
  requests_sent w' = requests_sent w ∧ log w' = log w.
Proof.
  rewrite _get_cached_stations_run. by destruct (cache_db w) eqn:H.
Qed.

(** ** Rows as dictionaries *)

Lemma dict_of_row_inj (r1 r2 : row) : dict_of_row r1 = dict_of_row r2 → r1 = r2.
Proof.
  intros H. destruct r1, r2.
  pose proof (f_equal (λ d : dict, d !! "id"%string) H) as H1.
  pose proof (f_equal (λ d : dict, d !! "name"%string) H) as H2.
  pose proof (f_equal (λ d : dict, d !! "url"%string) H) as H3.
  pose proof (f_equal (λ d : dict, d !! "country"%string) H) as H4.
  pose proof (f_equal (λ d : dict, d !! "code"%string) H) as H5.
  pose proof (f_equal (λ d : dict, d !! "tags"%string) H) as H6.
  pose proof (f_equal (λ d : dict, d !! "homepage"%string) H) as H7.
  pose proof (f_equal (λ d : dict, d !! "lat"%string) H) as H8.
  pose proof (f_equal (λ d : dict, d !! "lon"%string) H) as H9.
  pose proof (f_equal (λ d : dict, d !! "last_updated"%string) H) as H10.
  clear H. vm_compute in H1, H2, H3, H4, H5, H6, H7, H8, H9, H10.
  congruence.
Qed.


Lemma elem_of_dict_of_rows (r : row) (rows : list row) :
  dict_of_row r ∈ dict_of_row <$> rows ↔ r ∈ rows.
Proof.
  rewrite list_elem_of_fmap. split.
  - intros (r' & Heq & Hin). by rewrite (dict_of_row_inj _ _ Heq).
  - intros Hin. by exists r.
Qed.

(** ** The INSERT OR REPLACE statement *)

Lemma text_affinity_idemp (v : pyval) :
  text_affinity (text_affinity v) = text_affinity v.
Proof. by destruct v. Qed.


Lemma id_key_stored (r : row) : id_key (stored r) = id_key r.
Proof. apply text_affinity_idemp. Qed.

Lemma conflicts_stored (new old : row) :
  conflicts new (stored old) ↔ conflicts new old.
Proof. unfold conflicts. by rewrite id_key_stored. Qed.


Lemma filter_none {A} (P : A → Prop) `{∀ x, Decision (P x)} (l : list A) :
  (∀ x, x ∈ l → ¬ P x) → filter P l = [].
Proof.
  induction l as [|a l IH]; intros Hall; [done|].
  rewrite filter_cons, decide_False by (apply Hall; by left).
  apply IH. intros x Hx. apply Hall. by right.
Qed.

Lemma filter_all {A} (P : A → Prop) `{∀ x, Decision (P x)} (l : list A) :
  (∀ x, x ∈ l → P x) → filter P l = l.
Proof.
  induction l as [|a l IH]; intros Hall; [done|].
  rewrite filter_cons, decide_True by (apply Hall; by left).
  f_equal. apply IH. intros x Hx. apply Hall. by right.
Qed.

(** The rows of key [x] after one statement: the row of the tuple alone when
    the tuple carries [x], the rows there were otherwise. *)
Lemma filter_key_insert_same (t : table) (new : row) :
  id_key new ≠ PNone →
  filter (λ r, id_key r = id_key new) (insert_or_replace t new) = [stored new].
Proof.
  intros Hnn. unfold insert_or_replace. rewrite filter_app.
  rewrite (filter_cons _ (stored new)), decide_True, filter_nil
    by apply id_key_stored.
  rewrite filter_none; [done|].
  intros r Hr Heq. apply list_elem_of_filter in Hr as [Hno _].
  apply Hno. by split.
Qed.

Lemma filter_key_insert_other (t : table) (new : row) (x : pyval) :
  id_key new ≠ x →
  filter (λ r, id_key r = x) (insert_or_replace t new) =
  filter (λ r, id_key r = x) t.
Proof.
  intros Hne. unfold insert_or_replace. rewrite filter_app.
  rewrite (filter_cons _ (stored new)), decide_False, filter_nil, app_nil_r
    by (by rewrite id_key_stored).
  rewrite list_filter_filter. apply list_filter_iff. intros r.
  split; [tauto|]. intros Hx. split; [done|].
  intros [_ Heq]. congruence.
Qed.

Lemma filter_key_executemany_other (rows : list row) (t : table) (x : pyval) :
  (∀ r, r ∈ rows → id_key r ≠ x) →
  filter (λ r, id_key r = x) (executemany_insert rows t) =
  filter (λ r, id_key r = x) t.
Proof.
  revert t. induction rows as [|new rows IH]; intros t Hall; [done|].
  rewrite executemany_insert_cons, IH by (intros; apply Hall; by right).
  apply filter_key_insert_other, Hall. by left.
Qed.

(** Replace keyed by id: after a batch, the rows of a key the batch carries
    are the one row of the last tuple that carries it. *)
Lemma executemany_insert_last_of_key
    (before after : list row) (r : row) (t : table) :
  id_key r ≠ PNone →
  (∀ r', r' ∈ after → id_key r' ≠ id_key r) →
  filter (λ r', id_key r' = id_key r)
    (executemany_insert (before ++ r :: after) t) = [stored r].
Proof.
  intros Hid Hafter.
  rewrite executemany_insert_app, executemany_insert_cons.
  rewrite filter_key_executemany_other by done.
  by apply filter_key_insert_same.
Qed.





(** The rows of a stored id after one statement, when the table holds the
    id at most once. *)
Lemma filter_id_insert_at_most_one (t : table) (new : row) (x : pyval) :
  x ≠ PNone →
  (length (filter (λ r, r_id r = x) t) ≤ 1)%nat →
  (length (filter (λ r, r_id r = x) (insert_or_replace t new)) ≤ 1)%nat.
Proof.
  intros Hx Hone. unfold insert_or_replace.
  rewrite filter_app, length_app, list_filter_filter.
  destruct (decide (id_key new = x)) as [Heq|Hne].
  - rewrite filter_none.
    + rewrite filter_cons, filter_nil. case_decide; simpl; lia.
    + intros r _ [Hid Hno]. apply Hno. split; [congruence|].
      unfold id_key at 1. rewrite Hid, <- Heq. apply id_key_stored.
  - rewrite (filter_cons _ (stored new)), decide_False, filter_nil by done.
    simpl. rewrite Nat.add_0_r.
    etrans; [|exact Hone]. clear Hone.
    induction t as [|r t IH]; [done|]. rewrite !filter_cons.
    destruct (decide (r_id r = x)).
    + case_decide; simpl; lia.
    + rewrite decide_False by tauto. done.
Qed.

(** ** The rows of a batch *)







(** ** The statement applied twice *)

(** The table after a batch: the stored rows that survive it, then the rows
    of the tuples that are not replaced later in it. *)
Lemma executemany_insert_shape (rows : list row) (t : table) :
  executemany_insert rows t = filter (survives rows) t ++ (stored <$> lasts rows).
Proof.
  revert t. induction rows as [|new rows IH]; intros t.
  - simpl. rewrite app_nil_r. symmetry. apply filter_all.
    intros r _. constructor.
  - rewrite executemany_insert_cons, IH. unfold insert_or_replace at 1.
    rewrite filter_app, list_filter_filter, <- app_assoc. f_equal.
    + apply list_filter_iff. intros r. unfold survives.
      rewrite Forall_cons. tauto.
    + cbn [lasts]. rewrite fmap_app. f_equal.
      rewrite filter_cons, filter_nil.
      assert (survives rows (stored new) ↔ survives rows new) as Hiff.
      { unfold survives. apply Forall_iff. intros r.
        by rewrite conflicts_stored. }
      destruct (decide (survives rows new)) as [Hs|Hs].
      * by rewrite decide_True by (by apply Hiff).
      * by rewrite decide_False by (by rewrite Hiff).
Qed.






Lemma lasts_in_rows (rows : list row) (r : row) : r ∈ lasts rows → r ∈ rows.
Proof.
  induction rows as [|a rows IH]; [done|]. simpl.
  rewrite elem_of_app. intros [Hr|Hr]; [|right; by apply IH].
  destruct (decide (survives rows a)); [|by apply elem_of_nil in Hr].
  apply list_elem_of_singleton in Hr as ->. by left.
Qed.



(** ** Running the playback methods *)

Ltac in_calls := repeat first [apply list_elem_of_here | apply list_elem_of_further].

Ltac call_raises H :=
  right; split;
  [eexists; split; [|rewrite H; discriminate]; in_calls
  |by eexists].

Ltac no_call_raises :=
  left; split;
  [let c := fresh "c" in let Hc := fresh "Hc" in
   intros c Hc;
   repeat (apply elem_of_cons in Hc as [->|Hc]; [assumption|]);
   by apply elem_of_nil in Hc
  |split; [done|]; split; [done|]; eexists; split; [done|]; simpl;
   split; [by rewrite <- !app_assoc|done]].

(** [play] either makes all its calls, none raising, and returns whether
    [play()] returned 0, logging nothing; or one of its calls raises, and it
    logs that and returns [False]. *)
Lemma play_run (url : string) (w : world) (p : vlc) :
  player w = Some p →
  let calls := play_calls url (volume w) p in
  ( (∀ c, c ∈ calls → vlc_raises p c = None) ∧
    (play url w).1 = Ret (bool_decide (vlc_play_result p url = 0)) ∧
    log (play url w).2 = log w ∧
    ∃ p', player (play url w).2 = Some p' ∧
      vlc_calls p' = vlc_calls p ++ calls ∧
      vlc_volume p' = volume w ∧
      vlc_media p' = Some (Media url ["network-caching=3000"%string]) ) ∨
  ( (∃ c, c ∈ calls ∧ vlc_raises p c ≠ None) ∧
    ∃ e, (play url w).1 = Ret false ∧
      log (play url w).2 = log w ++ [LogError "Playback failed" e] ).
Proof.
  intros Hp calls. subst calls.
  destruct w as [db tx clk n dir sent lg vol pl]. simpl in Hp. subst pl.
  destruct p as [playing med v cs raises pres].
  unfold play, try_except, play_body, player_is_playing, player_stop,
    instance_media_new, media_add_option, player_set_media,
    player_audio_set_volume, player_play, when, vlc_do, logger_error, play_calls.
  run.
  destruct (raises IsPlaying) eqn:H1; simpl; [call_raises H1|].
  destruct playing; simpl.
  - destruct (raises Stop) eqn:H2; simpl; [call_raises H2|].
    destruct (raises (MediaNew url)) eqn:H3; simpl; [call_raises H3|].
    destruct (raises (AddOption "network-caching=3000")) eqn:H4; simpl;
      [call_raises H4|].
    destruct (raises (SetMedia (Media url ["network-caching=3000"%string])))
      eqn:H5; simpl; [call_raises H5|].
    destruct (raises (AudioSetVolume vol)) eqn:H6; simpl; [call_raises H6|].
    destruct (raises Play) eqn:H7; simpl; [call_raises H7|].
    no_call_raises.
  - destruct (raises (MediaNew url)) eqn:H3; simpl; [call_raises H3|].
    destruct (raises (AddOption "network-caching=3000")) eqn:H4; simpl;
      [call_raises H4|].
    destruct (raises (SetMedia (Media url ["network-caching=3000"%string])))
      eqn:H5; simpl; [call_raises H5|].
    destruct (raises (AudioSetVolume vol)) eqn:H6; simpl; [call_raises H6|].
    destruct (raises Play) eqn:H7; simpl; [call_raises H7|].
    no_call_raises.
Qed.

Lemma play_without_player (url : string) (w : world) :
  player w = None →
  play url w =
    (Ret false, set_log (log w ++ [LogError "Playback failed" AttributeError]) w).
Proof.
  intros Hp. unfold play, try_except, play_body, player_is_playing, vlc_do.
  run. by rewrite Hp.
Qed.


(** ** The cache orchestrator: [get_stations] *)

(** C2.  For a country whose stored rows are all fresh when [get_stations]
    reads the clock, and there is at least one, the call sends no request to
    the directory and returns exactly the stored rows of the country, as
    dictionaries, together with their number. *)
Theorem get_stations_cache_hit (country : string) (w : world) (t : table) :
  cache_db w = DbStations t →
  filter (λ r, r_country r = PStr country) t ≠ [] →
  (∀ r, r ∈ t → r_country r = PStr country → fresh (clock w (clock_reads w)) r) →
  let stored := filter (λ r, r_country r = PStr country) t in
  (get_stations country w).1 = Ret (dict_of_row <$> stored, length stored) ∧
  requests_sent (get_stations country w).2 = requests_sent w.
Proof.
  intros Hdb Hne Hfresh stored.
  pose proof (_get_cached_stations_run country w) as Hrun.
  rewrite Hdb, (select_fresh_all _ _ _ Hfresh) in Hrun. fold stored in Hrun.
  destruct stored as [|r rest] eqn:Hst; [done|].
  rewrite fmap_cons in Hrun. rewrite (get_stations_hit _ _ _ _ _ Hrun).
  split; [|done]. simpl. by rewrite length_fmap.
Qed.

Lemma get_stations_cache_hit_witness :
  let w := world_of (DbStations [ghana_row 0]) (failing ConnectionError) 1000 in
  (get_stations "Ghana" w).1 = Ret ([dict_of_row (ghana_row 0)], 1%nat) ∧
  requests_sent (get_stations "Ghana" w).2 = [].
Proof.
  intros w.
  apply (get_stations_cache_hit "Ghana" w [ghana_row 0]).
  - reflexivity.
  - vm_compute. discriminate.
  - intros r Hr _. apply list_elem_of_singleton in Hr as ->. vm_compute. reflexivity.
Defined.

(** C3.  On a miss the fetched set is not in the store when [get_stations]
    returns: with an empty table and a directory serving one station of
    Ghana, the call sends the one search request and returns the station,
    but the table is still empty, the next lookup finds nothing and the next
    call searches again. *)
Theorem get_stations_miss_leaves_store_empty :
  let w := world_of (DbStations []) (serving [ghana_fm]) 0 in
  let w1 := (get_stations "Ghana" w).2 in
  (get_stations "Ghana" w).1 = Ret ([ghana_fm], 1%nat) ∧
  requests_sent w1 = [search_request "Ghana"] ∧
  rq_params (search_request "Ghana") =
    list_to_map [("country", PStr "Ghana"); ("hidebroken", PStr "true");
                 ("order", PStr "votes"); ("reverse", PStr "true");
                 ("limit", PNum 500)]%string ∧
  cache_db w1 = DbStations [] ∧
  (_get_cached_stations "Ghana" w1).1 = Ret [] ∧
  requests_sent (get_stations "Ghana" w1).2 =
    [search_request "Ghana"; search_request "Ghana"].
Proof. vm_compute. repeat split; reflexivity. Qed.

(** C5.  [get_stations] returns to its caller whatever the cache file and
    the directory do; and when the lookup found nothing and the search
    raises (a network error or timeout of the request, an error status at
    [raise_for_status], a body that [json] cannot decode), the error is
    logged and the result is the empty list with count 0. *)
Theorem get_stations_never_raises (country : string) (w : world) :
  (∃ v, (get_stations country w).1 = Ret v) ∧
  ∀ w' e,
    _get_cached_stations country w = (Ret [], w') →
    (search_stations country w').1 = Raise e →
    (get_stations country w).1 = Ret ([], 0%nat) ∧
    log (get_stations country w).2 =
      log w ++ [LogError "Failed to fetch stations" e].
Proof.
  split.
  - destruct (_get_cached_stations country w) as [[[|d ds]|e] w'] eqn:H.
    + rewrite (get_stations_miss _ _ _ H).
      destruct (search_stations country w') as [[stations|e] w2]; [|by eexists].
      destruct (_cache_stations stations w2) as [[[]|e] w3]; by eexists.
    + rewrite (get_stations_hit _ _ _ _ _ H). by eexists.
    + rewrite (get_stations_lookup_raises _ _ _ _ H). by eexists.
  - intros w' e Hmiss Hsearch.
    rewrite (get_stations_miss _ _ _ Hmiss).
    pose proof (_get_cached_stations_frame country w) as (_ & _ & _ & Hlog).
    rewrite Hmiss in Hlog. simpl in Hlog.
    rewrite search_stations_run in *. simpl in Hsearch. rewrite Hsearch.
    simpl. by rewrite Hlog.
Qed.

Lemma get_stations_never_raises_witness :
  let w := world_of (DbStations []) (failing Timeout) 0 in
  (get_stations "Ghana" w).1 = Ret ([], 0%nat) ∧
  log (get_stations "Ghana" w).2 = [LogError "Failed to fetch stations" Timeout].
Proof.
  intros w.
  destruct (get_stations_never_raises "Ghana" w) as [_ H].
  apply (H (_get_cached_stations "Ghana" w).2 Timeout); reflexivity.
Defined.

(** C6, as the specification has it, fails: with the cache file unavailable
    and a directory ready to serve a station, the lookup raises, and
    [get_stations] neither sends the search nor returns the directory's
    answer. *)
Lemma get_stations_storage_failure_skips_search :
  let w := world_of DbUnavailable (serving [ghana_fm]) 0 in
  (_get_cached_stations "Ghana" w).1 = Raise OperationalError ∧
  (get_stations "Ghana" w).1 ≠ Ret ([ghana_fm], 1%nat) ∧
  requests_sent (get_stations "Ghana" w).2 ≠ [search_request "Ghana"].
Proof. vm_compute. repeat split; discriminate. Qed.

(** C6, amended.  When the lookup of [get_stations] raises, no request is
    sent to the directory: the error is logged and the call returns the
    empty list with count 0. *)
Theorem get_stations_lookup_failure (country : string) (w : world) (e : exn) :
  (_get_cached_stations country w).1 = Raise e →
  (get_stations country w).1 = Ret ([], 0%nat) ∧
  requests_sent (get_stations country w).2 = requests_sent w ∧
  log (get_stations country w).2 =
    log w ++ [LogError "Failed to fetch stations" e].
Proof.
  intros H.
  pose proof (_get_cached_stations_frame country w) as (_ & _ & Hsent & Hlog).
  destruct (_get_cached_stations country w) as [r w'] eqn:Hrun.
  simpl in *. subst r.
  rewrite (get_stations_lookup_raises _ _ _ _ Hrun). simpl.
  by rewrite Hsent, Hlog.
Qed.

Lemma get_stations_lookup_failure_witness :
  let w := world_of DbUnavailable (serving [ghana_fm]) 0 in
  (get_stations "Ghana" w).1 = Ret ([], 0%nat) ∧
  requests_sent (get_stations "Ghana" w).2 = [] ∧
  log (get_stations "Ghana" w).2 =
    [LogError "Failed to fetch stations" OperationalError].
Proof.
  intros w. apply (get_stations_lookup_failure "Ghana" w OperationalError).
  reflexivity.
Defined.

(** ** The station store: lookup and upsert *)

(** C4, as the specification has it, fails at the boundary: a row whose age
    is exactly the expiry is fresh in the specification's words, and the
    lookup does not return it. *)
Lemma lookup_drops_row_at_expiry :
  let w := world_of (DbStations [ghana_row 0]) (serving []) cache_expiry in
  spec_fresh (clock w (clock_reads w)) (r_last_updated (ghana_row 0)) cache_expiry ∧
  (_get_cached_stations "Ghana" w).1 = Ret [].
Proof. split; [by vm_compute|reflexivity]. Qed.

(** C4, amended.  The lookup returns a stored row of the country exactly when
    its age at the clock reading is strictly less than the expiry of six
    hours; so a row is returned 5h59m after it was written and is not
    returned 6h01m after. *)
Theorem lookup_returns_row_iff_younger_than_expiry
    (country : string) (w : world) (t : table) (r : row) :
  cache_db w = DbStations t →
  r ∈ t →
  r_country r = PStr country →
  let now := clock w (clock_reads w) in
  ∃ returned,
    (_get_cached_stations country w).1 = Ret returned ∧
    (dict_of_row r ∈ returned ↔ now - r_last_updated r < cache_expiry) ∧
    (now = r_last_updated r + (5 * 3600 + 59 * 60) * 1000000 →
     dict_of_row r ∈ returned) ∧
    (now = r_last_updated r + (6 * 3600 + 1 * 60) * 1000000 →
     dict_of_row r ∉ returned).
Proof.
  intros Hdb Hin Hc now. eexists. rewrite _get_cached_stations_run, Hdb.
  split; [reflexivity|].
  assert (dict_of_row r ∈
            dict_of_row <$> select_fresh country (now - cache_expiry) t
          ↔ now - r_last_updated r < cache_expiry) as Hiff.
  { rewrite elem_of_dict_of_rows. unfold select_fresh.
    rewrite list_elem_of_filter. split.
    - intros [[_ Hlt] _]. lia.
    - intros Hlt. repeat split; [done|lia|done]. }
  split; [exact Hiff|].
  split; intros Hnow.
  - apply Hiff. unfold cache_expiry. lia.
  - intros Hd. apply Hiff in Hd. unfold cache_expiry in Hd. lia.
Qed.

Lemma lookup_returns_row_iff_younger_than_expiry_witness :
  let w := world_of (DbStations [ghana_row 0]) (serving [])
             ((5 * 3600 + 59 * 60) * 1000000) in
  ∃ returned,
    (_get_cached_stations "Ghana" w).1 = Ret returned ∧
    (dict_of_row (ghana_row 0) ∈ returned ↔
       clock w (clock_reads w) - r_last_updated (ghana_row 0) < cache_expiry) ∧
    (clock w (clock_reads w) =
       r_last_updated (ghana_row 0) + (5 * 3600 + 59 * 60) * 1000000 →
     dict_of_row (ghana_row 0) ∈ returned) ∧
    (clock w (clock_reads w) =
       r_last_updated (ghana_row 0) + (6 * 3600 + 1 * 60) * 1000000 →
     dict_of_row (ghana_row 0) ∉ returned).
Proof.
  intros w.
  apply (lookup_returns_row_iff_younger_than_expiry "Ghana" w [ghana_row 0]).
  - reflexivity.
  - apply list_elem_of_singleton. reflexivity.
  - reflexivity.
Defined.







(** ** The playback session *)

(** C8, as the specification has it, fails: when the engine's [play()]
    reports an error by its return code, raising nothing, [play] returns
    [False] and writes nothing to the log. *)
Lemma play_error_code_is_not_logged :
  let w := with_player refusing_player
             (world_of (DbStations []) (serving []) 0) in
  (play "http://stream.example/ghana" w).1 = Ret false ∧
  log (play "http://stream.example/ghana" w).2 = [].
Proof. vm_compute. split; reflexivity. Qed.

(** C8, amended.  [play url] never raises to its caller.  It returns [True]
    exactly when none of its engine calls raises and [play()] returns 0.
    When no call raises, the calls it has made are [is_playing], then [stop]
    if the engine was playing, then the loading of the new media, the
    sticky volume and [play()], in that order, and nothing is logged, also
    when [play()] returns an error code.  When a call raises, the error is
    logged and the result is [False]. *)
Theorem play_stops_then_plays (url : string) (w : world) (p : vlc) :
  player w = Some p →
  let calls := play_calls url (volume w) p in
  let no_call_raises := ∀ c, c ∈ calls → vlc_raises p c = None in
  (∃ b, (play url w).1 = Ret b) ∧
  ((play url w).1 = Ret true ↔ no_call_raises ∧ vlc_play_result p url = 0) ∧
  (no_call_raises →
     log (play url w).2 = log w ∧
     ∃ p', player (play url w).2 = Some p' ∧
       vlc_calls p' =
         vlc_calls p ++ [IsPlaying] ++ (if vlc_playing p then [Stop] else []) ++
         [MediaNew url; AddOption "network-caching=3000";
          SetMedia (Media url ["network-caching=3000"%string]);
          AudioSetVolume (volume w); Play] ∧
       vlc_volume p' = volume w) ∧
  (¬ no_call_raises →
     ∃ e, (play url w).1 = Ret false ∧
       log (play url w).2 = log w ++ [LogError "Playback failed" e]).
Proof.
  intros Hp calls no_call_raises.
  destruct (play_run url w p Hp)
    as [(Hnone & Hres & Hlog & p' & Hp' & Hcalls & Hvol & _)
       |((c & Hc & Hraise) & e & Hres & Hlog)].
  - split; [by eexists|]. split; [|split].
    + rewrite Hres. split.
      * intros [= Hb]. apply bool_decide_eq_true in Hb. by split.
      * intros [_ Hz]. by rewrite bool_decide_eq_true_2.
    + intros _. split; [done|]. exists p'. by repeat split.
    + intros Hnot. by destruct Hnot.
  - split; [by eexists|]. split; [|split].
    + rewrite Hres. split; [done|]. intros [Hnone _].
      by destruct Hraise; apply Hnone.
    + intros Hnone. by destruct Hraise; apply Hnone.
    + intros _. by exists e.
Qed.

Lemma play_stops_then_plays_witness :
  let w := with_player faulty_player (world_of (DbStations []) (serving []) 0) in
  ∃ e, (play "http://stream.example/ghana" w).1 = Ret false ∧
    log (play "http://stream.example/ghana" w).2 =
      log w ++ [LogError "Playback failed" e].
Proof.
  intros w.
  destruct (play_stops_then_plays "http://stream.example/ghana" w faulty_player)
    as (_ & _ & _ & H); [reflexivity|].
  apply H. intros Hnone.
  specialize (Hnone
    (SetMedia (Media "http://stream.example/ghana" ["network-caching=3000"%string]))).
  discriminate Hnone. vm_compute. in_calls.
Defined.

(** C9.  [set_volume v] takes effect exactly for [0 <= v <= 100]: then the
    sticky volume becomes [v] and, if there is a player, [audio_set_volume v]
    is called on it at once; for any other [v] the call returns normally and
    changes nothing. *)
Theorem set_volume_in_range_only (v : Z) (w : world) :
  (0 ≤ v ≤ 100 →
     volume (set_volume v w).2 = v ∧
     match player w with
     | Some p =>
         ∃ p', player (set_volume v w).2 = Some p' ∧
           vlc_calls p' = vlc_calls p ++ [AudioSetVolume v] ∧
           (vlc_raises p (AudioSetVolume v) = None →
            (set_volume v w).1 = Ret tt ∧ vlc_volume p' = v)
     | None => set_volume v w = (Ret tt, set_volume_attr v w)
     end) ∧
  (¬ 0 ≤ v ≤ 100 → set_volume v w = (Ret tt, w)).
Proof.
  unfold set_volume. split; intros Hv.
  - rewrite bool_decide_eq_true_2 by done.
    unfold player_audio_set_volume, vlc_do. run.
    destruct (player w) as [p|] eqn:Hp; simpl; [|done].
    rewrite Hp.
    destruct (vlc_raises p (AudioSetVolume v)) eqn:Hr; simpl.
    + split; [done|]. eexists. by repeat split.
    + split; [done|]. eexists. by repeat split.
  - by rewrite bool_decide_eq_false_2.
Qed.

Lemma set_volume_in_range_only_witness :
  let w := world_of (DbStations []) (serving []) 0 in
  volume (set_volume 0 w).2 = 0 ∧
  volume (set_volume 100 w).2 = 100 ∧
  set_volume 150 w = (Ret tt, w) ∧
  set_volume (-1) w = (Ret tt, w) ∧
  volume (set_volume 150 w).2 = 70.
Proof.
  intros w.
  destruct (set_volume_in_range_only 0 w) as [H0 _].
  destruct (set_volume_in_range_only 100 w) as [H100 _].
  destruct (set_volume_in_range_only 150 w) as [_ H150].
  destruct (set_volume_in_range_only (-1) w) as [_ Hneg].
  split; [apply H0; lia|]. split; [apply H100; lia|].
  split; [apply H150; lia|]. split; [apply Hneg; lia|].
  rewrite H150 by lia. reflexivity.
Defined.

(** ** The two shapes of the records of [get_stations] *)



(** * Further properties of the code *)

(** ** [_init_cache_db] *)






(** ** The INSERT OR REPLACE statement on a table *)

(** X3.  The statement keeps the primary key: applied to a table in which
    no id other than NULL occurs twice, any batch leaves such a table. *)
Theorem executemany_insert_keeps_unique_ids (rows : list row) (t : table) :
  unique_ids t → unique_ids (executemany_insert rows t).
Proof.
  revert t. induction rows as [|new rows IH]; intros t Huniq; [done|].
  rewrite executemany_insert_cons. apply IH.
  intros x Hx. apply filter_id_insert_at_most_one; [done|]. by apply Huniq.
Qed.

Lemma executemany_insert_keeps_unique_ids_witness :
  unique_ids (executemany_insert [ghana_row 5; ghana_row 6] [ghana_row 0]).
Proof.
  apply executemany_insert_keeps_unique_ids.
  intros x Hx. rewrite filter_cons. case_decide; simpl; lia.
Defined.

(** X4.  Within a batch of tuples that bind, whose ids are no [datetime],
    the last tuple of a key wins: after the batch the rows of that key are
    one row, which holds in its TEXT columns the values of the last tuple
    that carries the key, as text, and has the time of that tuple. *)
Theorem executemany_insert_last_wins
    (before after : list row) (r : row) (t : table) :
  forallb row_binds (before ++ r :: after) = true →
  (∀ r', r' ∈ before ++ r :: after → ∀ x, r_id r' ≠ PTime x) →
  id_key r ≠ PNone →
  (∀ r', r' ∈ after → id_key r' ≠ id_key r) →
  executemany_bind (before ++ r :: after) t =
    (Ret tt, executemany_insert (before ++ r :: after) t) ∧
  without_coordinates <$>
    filter (λ r', id_key r' = id_key r)
      (executemany_insert (before ++ r :: after) t) =
  [without_coordinates (stored r)].
Proof.
  intros Hbinds _ Hid Hafter. split; [by apply executemany_bind_all|].
  by rewrite executemany_insert_last_of_key.
Qed.

Lemma executemany_insert_last_wins_witness :
  let five := Row (PNum 5) (PStr "Five") PNone PNone PNone PNone PNone PNone PNone 5 in
  let text := Row (PStr "5") (PNum 7) PNone PNone PNone PNone PNone PNone PNone 7 in
  without_coordinates <$>
    filter (λ r', id_key r' = PStr "5")
      (executemany_insert ([five] ++ text :: [station_row nameless_fm 8])
         [ghana_row 0]) =
  [Row (PStr "5") (PStr "7") PNone PNone PNone PNone PNone PNone PNone 7].
Proof.
  intros five text.
  apply (executemany_insert_last_wins [five] [station_row nameless_fm 8] text).
  - reflexivity.
  - intros r' Hr' x.
    repeat (apply elem_of_cons in Hr' as [->|Hr']; [discriminate|]).
    by apply elem_of_nil in Hr'.
  - discriminate.
  - intros r' Hr'. apply list_elem_of_singleton in Hr' as ->. discriminate.
Defined.


(** X6.  The statement leaves the other stations alone: for a batch of
    tuples that bind, whose ids are no [datetime], the rows whose key no
    tuple of the batch carries are after the batch what they were, in the
    same order. *)
Theorem executemany_insert_keeps_other_rows (rows : list row) (t : table) :
  forallb row_binds rows = true →
  (∀ r, r ∈ rows → ∀ x, r_id r ≠ PTime x) →
  executemany_bind rows t = (Ret tt, executemany_insert rows t) ∧
  filter (λ r, id_key r ∉ id_key <$> rows) (executemany_insert rows t) =
  filter (λ r, id_key r ∉ id_key <$> rows) t.
Proof.
  intros Hbinds _. split; [by apply executemany_bind_all|].
  rewrite executemany_insert_shape, filter_app.
  rewrite (filter_none _ (stored <$> lasts rows)), app_nil_r.
  - rewrite list_filter_filter. apply list_filter_iff. intros r.
    split; [tauto|]. intros Hout. split; [done|].
    apply Forall_forall. intros new Hnew [_ Heq].
    apply Hout. rewrite Heq. by apply list_elem_of_fmap_2.
  - intros r' Hr' Hout. apply list_elem_of_fmap in Hr' as (r & -> & Hr).
    apply lasts_in_rows in Hr. apply Hout. rewrite id_key_stored.
    by apply list_elem_of_fmap_2.
Qed.

Lemma executemany_insert_keeps_other_rows_witness :
  let five := Row (PNum 5) (PStr "Five") PNone PNone PNone PNone PNone PNone PNone 5 in
  let text := Row (PStr "5") (PStr "Old") PNone PNone PNone PNone PNone PNone PNone 1 in
  filter (λ r, id_key r ∉ id_key <$> [five]) (executemany_insert [five] [ghana_row 0; text]) =
  [ghana_row 0].
Proof.
  intros five text.
  destruct (executemany_insert_keeps_other_rows [five] [ghana_row 0; text])
    as [_ H]; [reflexivity| |].
  - intros r Hr x. apply list_elem_of_singleton in Hr as ->. discriminate.
  - rewrite H. reflexivity.
Defined.

(** ** [get_stations] on every path *)

(** The result and the world of [get_stations], path by path. *)
Lemma get_stations_run (country : string) (w : world) :
  get_stations country w =
    match _get_cached_stations country w with
    | (Ret (d :: ds), w1) => (Ret (d :: ds, length (d :: ds)), w1)
    | (Raise e, w1) =>
        (Ret ([], 0%nat),
         set_log (log w1 ++ [LogError "Failed to fetch stations" e]) w1)
    | (Ret [], w1) =>
        match search_stations country w1 with
        | (Raise e, w2) =>
            (Ret ([], 0%nat),
             set_log (log w2 ++ [LogError "Failed to fetch stations" e]) w2)
        | (Ret stations, w2) =>
            match _cache_stations stations w2 with
            | (Raise e, w3) =>
                (Ret ([], 0%nat),
                 set_log (log w3 ++ [LogError "Failed to fetch stations" e]) w3)
            | (Ret _, w3) => (Ret (stations, length stations), w3)
            end
        end
    end.
Proof.
  destruct (_get_cached_stations country w) as [[[|d ds]|e] w1] eqn:H.
  - apply (get_stations_miss _ _ _ H).
  - apply (get_stations_hit _ _ _ _ _ H).
  - apply (get_stations_lookup_raises _ _ _ _ H).
Qed.

Ltac get_stations_paths country w :=
  rewrite (get_stations_run country w);
  rewrite ?_get_cached_stations_run;
  destruct (cache_db w) as [| |?t] eqn:?Hdb; simpl;
  [| |destruct (select_fresh country _ _) as [|?r ?rows] eqn:?Hsel; simpl;
      [rewrite search_stations_run; simpl;
       destruct (directory w (search_request country)) as [?rs|?e]; simpl;
       [destruct (rs_raise_for_status _) as [?e|]; simpl;
        [|destruct (rs_json _) as [?stations|?e]; simpl;
          [rewrite _cache_stations_run; simpl; rewrite ?Hdb; simpl;
           destruct (forallb station_binds _) eqn:?Hbinds; simpl| ]]| ]| ]].

(** X7.  The count [get_stations] returns is the length of the list it
    returns, on every path. *)
Theorem get_stations_count_is_length
    (country : string) (w : world) (l : list dict) (n : nat) :
  (get_stations country w).1 = Ret (l, n) → n = length l.
Proof.
  get_stations_paths country w; intros [= <- <-]; done.
Qed.

Lemma get_stations_count_is_length_witness :
  1%nat = length [ghana_fm].
Proof.
  apply (get_stations_count_is_length "Ghana"
           (world_of (DbStations []) (serving [ghana_fm]) 0)).
  reflexivity.
Defined.

(** X8.  A call of [get_stations] sends at most one request, the search for
    its own country, and sends it exactly when the lookup returned and found
    nothing. *)
Theorem get_stations_sends_at_most_one_request (country : string) (w : world) :
  requests_sent (get_stations country w).2 =
    requests_sent w ++
    match (_get_cached_stations country w).1 with
    | Ret [] => [search_request country]
    | _ => []
    end.
Proof.
  get_stations_paths country w; by rewrite ?app_nil_r.
Qed.

(** X9.  A call of [get_stations] writes at most one line to the log, and
    writes it exactly when it returns the empty list for a failure: a call
    that returns stations has logged nothing. *)
Theorem get_stations_logs_its_failures (country : string) (w : world) :
  (log (get_stations country w).2 = log w ∨
   ∃ e, log (get_stations country w).2 =
          log w ++ [LogError "Failed to fetch stations" e] ∧
        (get_stations country w).1 = Ret ([], 0%nat)) ∧
  (∀ l n, (get_stations country w).1 = Ret (l, n) → l ≠ [] →
          log (get_stations country w).2 = log w).
Proof.
  get_stations_paths country w;
    (split; [first [by left | right; by eexists]|]);
    intros l n [= <- <-] Hne; done.
Qed.

Lemma get_stations_logs_its_failures_witness :
  let w := world_of (DbStations []) (serving [ghana_fm]) 0 in
  log (get_stations "Ghana" w).2 = log w.
Proof.
  intros w. destruct (get_stations_logs_its_failures "Ghana" w) as [_ H].
  apply (H [ghana_fm] 1%nat); [reflexivity|discriminate].
Defined.

(** X10.  No sequence of calls of [get_stations] changes the committed rows
    of the cache file: whatever the countries asked for and whatever the
    directory answers, the stored rows of every country stay what they
    were. *)
Theorem get_stations_never_commits
    (countries : list string) (w : world) (country : string) :
  cache_db (after_get_stations countries w) = cache_db w ∧
  stored_rows country (after_get_stations countries w) = stored_rows country w.
Proof.
  assert (cache_db (after_get_stations countries w) = cache_db w) as H.
  { revert w. induction countries as [|c cs IH]; intros w; [done|].
    simpl. fold (after_get_stations cs). rewrite IH.
    apply get_stations_cache_db. }
  split; [done|]. unfold stored_rows. by rewrite H.
Qed.

Lemma select_fresh_later (country : string) (bound bound' : Z) (t : table) :
  bound ≤ bound' → select_fresh country bound t = [] →
  select_fresh country bound' t = [].
Proof.
  intros Hle Hnil. unfold select_fresh in *. apply filter_none.
  intros r Hr [Hc Hlt].
  assert (r ∈ filter (λ r, r_country r = PStr country ∧ bound < r_last_updated r) t)
    as Hin by (apply list_elem_of_filter; split; [split; [done|lia]|done]).
  rewrite Hnil in Hin. by apply elem_of_nil in Hin.
Qed.

(** What a call of [get_stations] leaves of the clock and the file. *)
Lemma get_stations_clock (country : string) (w : world) :
  clock (get_stations country w).2 = clock w ∧
  (clock_reads w ≤ clock_reads (get_stations country w).2)%nat ∧
  directory (get_stations country w).2 = directory w.
Proof.
  get_stations_paths country w; repeat split; lia.
Qed.

Lemma lookup_miss_inv (country : string) (w : world) :
  (_get_cached_stations country w).1 = Ret [] →
  ∃ t, cache_db w = DbStations t ∧
       select_fresh country (clock w (clock_reads w) - cache_expiry) t = [].
Proof.
  rewrite _get_cached_stations_run.
  destruct (cache_db w) as [| |t]; try discriminate.
  simpl. intros [= H]. exists t. split; [done|].
  by apply fmap_nil_inv in H.
Qed.

(** With a clock that does not run backwards a miss stays a miss. *)
Lemma get_stations_miss_stays (country : string) (w : world) :
  (∀ i j, (i ≤ j)%nat → clock w i ≤ clock w j) →
  (_get_cached_stations country w).1 = Ret [] →
  (_get_cached_stations country (get_stations country w).2).1 = Ret [] ∧
  requests_sent (get_stations country w).2 =
    requests_sent w ++ [search_request country].
Proof.
  intros Hmono Hmiss. split.
  - destruct (lookup_miss_inv _ _ Hmiss) as (t & Hdb & Hsel).
    destruct (get_stations_clock country w) as (Hclk & Hreads & _).
    rewrite _get_cached_stations_run, get_stations_cache_db, Hdb, Hclk. simpl.
    rewrite (select_fresh_later country
               (clock w (clock_reads w) - cache_expiry) _ t); [done| |done].
    specialize (Hmono _ _ Hreads). lia.
  - clear Hmono. revert Hmiss.
    get_stations_paths country w; intros Hm; try discriminate Hm; done.
Qed.

(** X11.  A miss is never remedied: with a clock that does not run
    backwards, once the lookup has found nothing for a country, every later
    call of [get_stations] for it sends the search request again, whatever
    the directory has answered in between. *)
Theorem get_stations_miss_repeats_request
    (country : string) (w : world) (k : nat) :
  (∀ i j, (i ≤ j)%nat → clock w i ≤ clock w j) →
  (_get_cached_stations country w).1 = Ret [] →
  requests_sent (after_get_stations (replicate k country) w) =
    requests_sent w ++ replicate k (search_request country).
Proof.
  revert w. induction k as [|k IH]; intros w Hmono Hmiss.
  - simpl. by rewrite app_nil_r.
  - simpl. fold (after_get_stations (replicate k country)).
    destruct (get_stations_miss_stays country w Hmono Hmiss) as [Hnext Hsent].
    destruct (get_stations_clock country w) as (Hclk & _ & _).
    rewrite IH; [|by rewrite Hclk|done].
    rewrite Hsent. by rewrite <- app_assoc.
Qed.

Lemma get_stations_miss_repeats_request_witness :
  let w := world_of (DbStations []) (serving [ghana_fm]) 0 in
  requests_sent (after_get_stations (replicate 3 "Ghana"%string) w) =
    requests_sent w ++ replicate 3 (search_request "Ghana").
Proof.
  intros w. apply (get_stations_miss_repeats_request "Ghana" w 3).
  - intros i j Hij. simpl. lia.
  - reflexivity.
Defined.

(** ** The two flows do not meet *)

(** The result of [get_stations] depends on the file, the clock and the
    directory only. *)
Lemma get_stations_result_ext (country : string) (w1 w2 : world) :
  cache_db w1 = cache_db w2 →
  clock w1 (clock_reads w1) = clock w2 (clock_reads w2) →
  directory w1 = directory w2 →
  (get_stations country w1).1 = (get_stations country w2).1.
Proof.
  intros Hdb Hclk Hdir.
  rewrite !get_stations_run, !_get_cached_stations_run, Hdb, Hclk.
  destruct (cache_db w2) as [| |t] eqn:Hdb2; simpl; [done|done|].
  destruct (select_fresh country _ t) as [|r rows]; simpl; [|done].
  rewrite !search_stations_run. simpl. rewrite Hdir.
  destruct (directory w2 (search_request country)) as [rs|e]; simpl; [|done].
  destruct (rs_raise_for_status rs); simpl; [done|].
  destruct (rs_json rs) as [stations|e]; simpl; [|done].
  rewrite !_cache_stations_run. simpl. rewrite Hdb, Hdb2.
  by destruct (forallb station_binds stations).
Qed.

Lemma get_stations_playback_frame (country : string) (w : world) :
  volume (get_stations country w).2 = volume w ∧
  player (get_stations country w).2 = player w.
Proof. get_stations_paths country w; done. Qed.

Section Frames.

Context {A B : Type}.

Lemma keeps_cache_side_bind (m : M world A) (k : A → M world B) :
  keeps_cache_side m → (∀ a, keeps_cache_side (k a)) →
  keeps_cache_side (m ≫= k).
Proof.
  intros Hm Hk w. unfold mbind, M_bind. specialize (Hm w).
  destruct (m w) as [[a|e] w1]; simpl in *; [|done].
  by rewrite (Hk a w1).
Qed.

Lemma keeps_cache_side_try (m : M world A) (h : exn → M world A) :
  keeps_cache_side m → (∀ e, keeps_cache_side (h e)) →
  keeps_cache_side (try_except m h).
Proof.
  intros Hm Hh w. unfold try_except. specialize (Hm w).
  destruct (m w) as [[a|e] w1]; simpl in *; [done|].
  by rewrite (Hh e w1).
Qed.

Lemma keeps_cache_side_vlc_do (c : vlc_call) (eff : vlc → vlc) (res : vlc → A) :
  keeps_cache_side (vlc_do c eff res).
Proof.
  intros w. unfold vlc_do. destruct (player w) as [p|]; [|done].
  by destruct (vlc_raises p c).
Qed.

Lemma playback_only_bind (m : M world A) (k : A → M world B) :
  playback_only m → (∀ a, playback_only (k a)) → playback_only (m ≫= k).
Proof.
  intros Hm Hk w1 w2 Hside. unfold mbind, M_bind.
  destruct (Hm w1 w2 Hside) as [Hres Hside'].
  destruct (m w1) as [[a1|e1] w1'], (m w2) as [[a2|e2] w2']; simpl in *;
    try discriminate; injection Hres as ->; [|done].
  by apply Hk.
Qed.

Lemma playback_only_try (m : M world A) (h : exn → M world A) :
  playback_only m → (∀ e, playback_only (h e)) → playback_only (try_except m h).
Proof.
  intros Hm Hh w1 w2 Hside. unfold try_except.
  destruct (Hm w1 w2 Hside) as [Hres Hside'].
  destruct (m w1) as [[a1|e1] w1'], (m w2) as [[a2|e2] w2']; simpl in *;
    try discriminate; injection Hres as ->; [done|].
  by apply Hh.
Qed.

Lemma playback_only_vlc_do (c : vlc_call) (eff : vlc → vlc) (res : vlc → A) :
  playback_only (vlc_do c eff res).
Proof.
  intros w1 w2 [= Hv Hp]. unfold vlc_do, playback_side. rewrite Hp.
  destruct (player w2) as [p|] eqn:Hp2; simpl.
  - destruct (vlc_raises p c); simpl; by rewrite Hv.
  - by rewrite Hv, Hp, Hp2.
Qed.

End Frames.

Lemma keeps_cache_side_ret {A} (a : A) : keeps_cache_side (mret a).
Proof. done. Qed.

Lemma playback_only_ret {A} (a : A) : playback_only (mret a).
Proof. done. Qed.

Lemma keeps_cache_side_logger_error (msg : string) (e : exn) :
  keeps_cache_side (logger_error msg e).
Proof. done. Qed.

Lemma playback_only_logger_error (msg : string) (e : exn) :
  playback_only (logger_error msg e).
Proof. done. Qed.

Ltac frame :=
  repeat first
    [ apply keeps_cache_side_try | apply playback_only_try
    | apply keeps_cache_side_bind | apply playback_only_bind
    | apply keeps_cache_side_vlc_do | apply playback_only_vlc_do
    | apply keeps_cache_side_logger_error | apply playback_only_logger_error
    | apply keeps_cache_side_ret | apply playback_only_ret
    | intros ? ].

Lemma play_keeps_cache_side (url : string) : keeps_cache_side (play url).
Proof.
  unfold play, play_body, player_is_playing, player_stop, instance_media_new,
    media_add_option, player_set_media, player_audio_set_volume, player_play,
    when.
  frame; try done. destruct a; frame.
Qed.

Lemma stop_keeps_cache_side : keeps_cache_side stop.
Proof.
  unfold stop, player_is_playing, player_stop, when, logger_error.
  frame; try done. destruct a; frame.
Qed.

Lemma play_playback_only (url : string) : playback_only (play url).
Proof.
  unfold play, play_body, player_is_playing, player_stop, instance_media_new,
    media_add_option, player_set_media, player_audio_set_volume, player_play,
    when.
  frame; try done.
  - destruct a; [by apply playback_only_vlc_do|done].
  - injection H as Hv Hp. unfold gets, playback_side. simpl. by rewrite Hv, Hp.
Qed.

(** X12.  Browsing and playing do not disturb each other: [play] and [stop]
    change nothing of the cache file, the requests sent or the clock, and
    [get_stations] nothing of the player or the volume; so [get_stations]
    returns the same after a [play] as before it, and [play] the same after
    a [get_stations] as before it. *)
Theorem playback_and_browsing_are_independent
    (country url : string) (w : world) :
  (get_stations country (play url w).2).1 = (get_stations country w).1 ∧
  (get_stations country (stop w).2).1 = (get_stations country w).1 ∧
  (play url (get_stations country w).2).1 = (play url w).1 ∧
  cache_db (play url w).2 = cache_db w ∧
  requests_sent (play url w).2 = requests_sent w ∧
  cache_db (stop w).2 = cache_db w ∧
  requests_sent (stop w).2 = requests_sent w ∧
  player (get_stations country w).2 = player w ∧
  volume (get_stations country w).2 = volume w.
Proof.
  pose proof (play_keeps_cache_side url w) as [= Hdb _ Hclk Hn Hdir Hsent].
  pose proof (stop_keeps_cache_side w) as [= Hdb' _ Hclk' Hn' Hdir' Hsent'].
  destruct (get_stations_playback_frame country w) as [Hvol Hpl].
  repeat split; try done.
  - apply get_stations_result_ext; [done| |done]. by rewrite Hclk, Hn.
  - apply get_stations_result_ext; [done| |done]. by rewrite Hclk', Hn'.
  - apply play_playback_only. unfold playback_side. by rewrite Hvol, Hpl.
Qed.

(** ** The playback session over several calls *)

Ltac playback_run :=
  unfold play, stop, set_volume, try_except, play_body, player_is_playing,
    player_stop, instance_media_new, media_add_option, player_set_media,
    player_audio_set_volume, player_play, when, vlc_do, logger_error, play_code;
  run.

Ltac no_raise H := repeat (rewrite !H; simpl).

(** X13.  [stop] never raises and never changes the sticky volume.  When
    its engine calls do not raise it logs nothing, asks [is_playing], calls
    [stop()] only if the engine was playing, and leaves the engine not
    playing, with the media and the engine volume it had. *)
Theorem stop_is_safe (w : world) :
  (stop w).1 = Ret tt ∧
  volume (stop w).2 = volume w ∧
  ∀ p, player w = Some p →
    vlc_raises p IsPlaying = None →
    (vlc_playing p = true → vlc_raises p Stop = None) →
    log (stop w).2 = log w ∧
    ∃ p', player (stop w).2 = Some p' ∧
      vlc_playing p' = false ∧
      vlc_calls p' =
        vlc_calls p ++ [IsPlaying] ++ (if vlc_playing p then [Stop] else []) ∧
      vlc_media p' = vlc_media p ∧ vlc_volume p' = vlc_volume p.
Proof.
  destruct w as [db tx clk n dir sent lg vol pl]. split; [|split].
  - playback_run. destruct pl as [p|]; simpl; [|done].
    destruct (vlc_raises p IsPlaying); simpl; [done|].
    destruct (vlc_playing p); simpl; [|done].
    by destruct (vlc_raises p Stop).
  - playback_run. destruct pl as [p|]; simpl; [|done].
    destruct (vlc_raises p IsPlaying); simpl; [done|].
    destruct (vlc_playing p); simpl; [|done].
    by destruct (vlc_raises p Stop).
  - intros p Hp H1 H2. simpl in Hp. subst pl.
    destruct p as [playing med v cs raises pres]. simpl in *.
    playback_run. rewrite H1. simpl.
    destruct playing; simpl.
    + rewrite H2 by done. simpl. split; [done|]. eexists.
      split; [done|]. simpl. by rewrite <- app_assoc.
    + split; [done|]. eexists. by split.
Qed.

Lemma stop_is_safe_witness :
  let w := with_player faulty_player (world_of (DbStations []) (serving []) 0) in
  log (stop w).2 = log w ∧
  ∃ p', player (stop w).2 = Some p' ∧
    vlc_playing p' = false ∧
    vlc_calls p' = vlc_calls faulty_player ++ [IsPlaying] ++ [Stop] ∧
    vlc_media p' = vlc_media faulty_player ∧
    vlc_volume p' = vlc_volume faulty_player.
Proof.
  intros w. destruct (stop_is_safe w) as (_ & _ & H).
  apply (H faulty_player); reflexivity.
Defined.

(** X14.  [stop] on a stopped player does nothing: of two calls in a row the
    second asks [is_playing] and calls nothing else, and the engine is as
    the first left it. *)
Theorem stop_twice (w : world) (p : vlc) :
  player w = Some p →
  vlc_raises p IsPlaying = None →
  vlc_raises p Stop = None →
  ∃ p1 p2,
    player (stop w).2 = Some p1 ∧
    player (stop (stop w).2).2 = Some p2 ∧
    vlc_calls p2 = vlc_calls p1 ++ [IsPlaying] ∧
    vlc_playing p2 = false ∧ vlc_playing p1 = false ∧
    vlc_media p2 = vlc_media p1 ∧ vlc_volume p2 = vlc_volume p1 ∧
    log (stop (stop w).2).2 = log w.
Proof.
  intros Hp H1 H2.
  destruct w as [db tx clk n dir sent lg vol pl]. simpl in Hp. subst pl.
  destruct p as [playing med v cs raises pres]. simpl in *.
  playback_run. rewrite H1. simpl.
  destruct playing; simpl.
  - rewrite H2. simpl. rewrite H1. simpl. eexists _, _. by repeat split.
  - rewrite H1. simpl. eexists _, _. by repeat split.
Qed.

Lemma stop_twice_witness :
  let w := with_player faulty_player (world_of (DbStations []) (serving []) 0) in
  ∃ p1 p2,
    player (stop w).2 = Some p1 ∧
    player (stop (stop w).2).2 = Some p2 ∧
    vlc_calls p2 = vlc_calls p1 ++ [IsPlaying] ∧
    vlc_playing p2 = false ∧ vlc_playing p1 = false ∧
    vlc_media p2 = vlc_media p1 ∧ vlc_volume p2 = vlc_volume p1 ∧
    log (stop (stop w).2).2 = log w.
Proof.
  intros w. apply (stop_twice w faulty_player); reflexivity.
Defined.

(** X15.  One stream at a time: on an engine none of whose calls raises,
    when [play a] has started its stream, a following [play b] calls
    [stop()] before it loads the media of [b], and the media the player
    holds in the end is that of [b]. *)
Theorem play_after_play_stops_first (a b : string) (w : world) (p : vlc) :
  player w = Some p →
  (∀ c, vlc_raises p c = None) →
  vlc_play_result p a = 0 →
  let w1 := (play a w).2 in
  (play a w).1 = Ret true ∧
  (play b w1).1 = Ret (bool_decide (vlc_play_result p b = 0)) ∧
  ∃ p1 p2,
    player w1 = Some p1 ∧ player (play b w1).2 = Some p2 ∧
    vlc_playing p1 = true ∧
    vlc_calls p2 =
      vlc_calls p1 ++
      [IsPlaying; Stop; MediaNew b; AddOption "network-caching=3000";
       SetMedia (Media b ["network-caching=3000"%string]);
       AudioSetVolume (volume w); Play] ∧
    vlc_media p2 = Some (Media b ["network-caching=3000"%string]).
Proof.
  intros Hp Hnone Ha w1. subst w1.
  destruct w as [db tx clk n dir sent lg vol pl]. simpl in Hp. subst pl.
  destruct p as [playing med v cs raises pres]. simpl in *.
  playback_run. no_raise Hnone.
  destruct playing; simpl;
    repeat (first [rewrite Hnone | rewrite Ha]; simpl);
    (split; [done|]); (split; [done|]);
    eexists _, _; (split; [done|]); (split; [done|]); (split; [done|]);
    simpl; (split; [|done]); by rewrite <- !app_assoc.
Qed.

Lemma play_after_play_stops_first_witness :
  let w := world_of (DbStations []) (serving []) 0 in
  (play "http://a.example" w).1 = Ret true ∧
  (play "http://b.example" (play "http://a.example" w).2).1 =
    Ret (bool_decide (vlc_play_result idle_player "http://b.example" = 0)).
Proof.
  intros w.
  destruct (play_after_play_stops_first "http://a.example" "http://b.example"
              w idle_player) as (H1 & H2 & _); try reflexivity.
  by split.
Defined.

(** X16.  The volume is sticky: on an engine none of whose calls raises,
    after [set_volume v] with [v] in range, a [set_volume] out of range, a
    [stop] and a [play] later the sticky volume is still [v], and [play] has
    set the engine to it just before [play()]. *)
Theorem volume_is_sticky (v bad : Z) (url : string) (w : world) (p : vlc) :
  player w = Some p →
  (∀ c, vlc_raises p c = None) →
  0 ≤ v ≤ 100 →
  ¬ 0 ≤ bad ≤ 100 →
  let w1 := (set_volume bad (set_volume v w).2).2 in
  let w2 := (play url (stop w1).2).2 in
  volume w1 = v ∧ volume w2 = v ∧
  ∃ p2 calls,
    player w2 = Some p2 ∧ vlc_volume p2 = v ∧
    vlc_calls p2 = calls ++ [AudioSetVolume v; Play].
Proof.
  intros Hp Hnone Hv Hbad w1 w2. subst w1 w2.
  destruct w as [db tx clk n dir sent lg vol pl]. simpl in Hp. subst pl.
  destruct p as [playing med v0 cs raises pres]. simpl in *.
  playback_run.
  rewrite (bool_decide_eq_true_2 _ Hv), (bool_decide_eq_false_2 _ Hbad).
  simpl. no_raise Hnone.
  destruct playing; simpl; no_raise Hnone;
    (split; [done|]); (split; [done|]);
    eexists _, _; (split; [reflexivity|]); simpl; (split; [reflexivity|]);
    symmetry; apply (app_assoc _ [AudioSetVolume v] [Play]).
Qed.

Lemma volume_is_sticky_witness :
  let w := world_of (DbStations []) (serving []) 0 in
  volume (set_volume 150 (set_volume 35 w).2).2 = 35 ∧
  volume (play "http://a.example"
            (stop (set_volume 150 (set_volume 35 w).2).2).2).2 = 35.
Proof.
  intros w.
  destruct (volume_is_sticky 35 150 "http://a.example" w idle_player)
    as (H1 & H2 & _); [reflexivity|reflexivity|lia|lia|].
  by split.
Defined.

(** ** [sorted] *)

Section Sorting.

Context {A : Type} (le : A → A → bool).

Lemma insert_by_perm (x : A) (l : list A) : insert_by le x l ≡ₚ x :: l.
Proof.
  induction l as [|y l IH]; [done|]. simpl.
  destruct (le x y); [done|]. rewrite IH. apply Permutation_swap.
Qed.

Lemma sort_by_perm (l : list A) : sort_by le l ≡ₚ l.
Proof.
  induction l as [|x l IH]; [done|]. simpl.
  fold (sort_by le l). by rewrite insert_by_perm, IH.
Qed.

(** Sortedness, for an order [R] that [le] decides on the elements that are
    [good]. *)
Lemma insert_by_sorted (R : A → A → Prop) (good : A → Prop) (x : A) (l : list A) :
  (∀ a b, good a → good b → le a b = true → R a b) →
  (∀ a b, good a → good b → le a b = false → R b a) →
  good x → Forall good l → Sorted R l → Sorted R (insert_by le x l).
Proof.
  intros Hle Hgt Hx. induction l as [|y l IH]; intros Hgood Hsorted.
  - repeat constructor.
  - apply Forall_cons in Hgood as [Hy Hgood].
    apply Sorted_inv in Hsorted as [Hsorted Hhd]. simpl.
    destruct (le x y) eqn:Hxy.
    + constructor; [by constructor|]. constructor. by apply Hle.
    + constructor; [by apply IH|].
      destruct l as [|z l]; simpl.
      * constructor. by apply Hgt.
      * destruct (le x z); constructor; [by apply Hgt|].
        by apply HdRel_inv in Hhd.
Qed.

Lemma sort_by_sorted (R : A → A → Prop) (good : A → Prop) (l : list A) :
  (∀ a b, good a → good b → le a b = true → R a b) →
  (∀ a b, good a → good b → le a b = false → R b a) →
  Forall good l → Sorted R (sort_by le l).
Proof.
  intros Hle Hgt. induction l as [|x l IH]; intros Hgood; [constructor|].
  apply Forall_cons in Hgood as [Hx Hgood]. simpl. fold (sort_by le l).
  apply (insert_by_sorted R good); try done; [|by apply IH].
  by rewrite sort_by_perm.
Qed.

(** Stability: the elements of a class whose members [le] puts in either
    order keep the order they had. *)
Lemma insert_by_stable (P : A → Prop) `{∀ a, Decision (P a)} (x : A) (l : list A) :
  (∀ a b, P a → P b → le a b = true) →
  filter P (insert_by le x l) = filter P (x :: l).
Proof.
  intros Hclass. induction l as [|y l IH]; [done|]. simpl.
  destruct (le x y) eqn:Hxy; [done|].
  rewrite (filter_cons _ y), IH, !filter_cons.
  destruct (decide (P x)) as [Hx|Hx], (decide (P y)) as [Hy|Hy]; try done.
  by rewrite Hclass in Hxy.
Qed.

Lemma sort_by_stable (P : A → Prop) `{∀ a, Decision (P a)} (l : list A) :
  (∀ a b, P a → P b → le a b = true) →
  filter P (sort_by le l) = filter P l.
Proof.
  intros Hclass. induction l as [|x l IH]; [done|]. simpl.
  fold (sort_by le l).
  by rewrite insert_by_stable, !filter_cons, IH.
Qed.

End Sorting.

Lemma string_leb_refl (s : string) : String.leb s s = true.
Proof. by destruct (String.leb_total s s). Qed.

Lemma string_leb_false (s t : string) :
  String.leb s t = false → String.leb t s = true.
Proof. intros H. destruct (String.leb_total s t); congruence. Qed.

(** ** [get_countries] *)

Section Countries.

Variables KeyError TypeError : exn.

Lemma names_of_named (l : list dict) :
  (∀ x, x ∈ l → is_Some (x !! "name"%string)) →
  mapM (λ x : dict, x !! "name"%string) l = Some ((λ x, dict_get x "name") <$> l).
Proof.
  intros Hall. apply mapM_Some. apply Forall2_fmap_r, Forall_Forall2_diag.
  apply Forall_forall. intros x Hx. unfold dict_get.
  destruct (Hall x Hx) as [v Hv]. simpl. by rewrite Hv.
Qed.

Lemma names_of_unnamed (l : list dict) (x : dict) :
  x ∈ l → x !! "name"%string = None →
  mapM (λ x : dict, x !! "name"%string) l = None.
Proof.
  intros Hx Hnone. apply mapM_None. apply Exists_exists. by exists x.
Qed.

Lemma comparable_strings (l : list dict) :
  (∀ x, x ∈ l → ∃ s, x !! "name"%string = Some (PStr s)) →
  comparable ((λ x, dict_get x "name") <$> l) = true.
Proof.
  intros Hall.
  assert (forallb is_str ((λ x, dict_get x "name") <$> l) = true) as Hstr.
  { apply forallb_forall. intros v Hv. apply list_elem_of_In in Hv.
    apply list_elem_of_fmap in Hv as (x & -> & Hx).
    destruct (Hall x Hx) as [s Hs]. unfold dict_get. by rewrite Hs. }
  unfold comparable. rewrite Hstr.
  by destruct l as [|? [|? ?]].
Qed.

Lemma sorted_by_name_strings (l : list dict) :
  (∀ x, x ∈ l → ∃ s, x !! "name"%string = Some (PStr s)) →
  sorted_by_name KeyError TypeError l = Ret (sort_by name_le l).
Proof.
  intros Hall. unfold sorted_by_name.
  rewrite names_of_named, comparable_strings; [done|done|].
  intros x Hx. destruct (Hall x Hx) as [s ->]. by eexists.
Qed.

Lemma get_countries_run (w : world) :
  get_countries KeyError TypeError w =
    let w1 := set_requests_sent (requests_sent w ++ [countries_request]) w in
    let failed e :=
      (Ret [], set_log (log w ++ [LogError "Failed to fetch countries" e]) w1) in
    match directory w countries_request with
    | Raise e => failed e
    | Ret rs =>
        match rs_raise_for_status rs with
        | Some e => failed e
        | None =>
            match rs_json rs with
            | Raise e => failed e
            | Ret l =>
                match sorted_by_name KeyError TypeError l with
                | Ret l' => (Ret l', w1)
                | Raise e => failed e
                end
            end
        end
    end.
Proof.
  unfold get_countries, try_except, get_countries_body, requests_get,
    raise_for_status, response_json, done_with, logger_error. run.
  destruct (directory w countries_request) as [rs|e]; [|done].
  destruct (rs_raise_for_status rs); run; [done|].
  destruct (rs_json rs) as [l|e]; [|done].
  by destruct (sorted_by_name KeyError TypeError l).
Qed.

(** X17.  [get_countries] never raises.  It sends one request, for the list
    of countries, and touches neither the cache file nor the player; it
    writes at most one line to the log, and when it has written one it
    returns the empty list. *)
Theorem get_countries_never_raises (w : world) :
  let w' := (get_countries KeyError TypeError w).2 in
  (∃ l, (get_countries KeyError TypeError w).1 = Ret l ∧
        (log w' = log w ∨
         ∃ e, log w' = log w ++ [LogError "Failed to fetch countries" e] ∧
              l = [])) ∧
  requests_sent w' = requests_sent w ++ [countries_request] ∧
  cache_db w' = cache_db w ∧ player w' = player w ∧ volume w' = volume w.
Proof.
  rewrite get_countries_run. simpl.
  destruct (directory w countries_request) as [rs|e].
  2:{ split; [|done]. eexists. split; [done|]. right. by eexists. }
  destruct (rs_raise_for_status rs).
  { split; [|done]. eexists. split; [done|]. right. by eexists. }
  destruct (rs_json rs) as [l|e].
  2:{ split; [|done]. eexists. split; [done|]. right. by eexists. }
  destruct (sorted_by_name KeyError TypeError l).
  - split; [|done]. eexists. split; [done|]. by left.
  - split; [|done]. eexists. split; [done|]. right. by eexists.
Qed.

(** X18.  When the directory answers with records that all have a string
    for name, [get_countries] returns the same records in ascending order of
    name, records of one name in the order the directory gave them, and
    logs nothing. *)
Theorem get_countries_sorted_by_name
    (w : world) (rs : http_response) (l : list dict) :
  directory w countries_request = Ret rs →
  rs_raise_for_status rs = None →
  rs_json rs = Ret l →
  (∀ x, x ∈ l → ∃ s, x !! "name"%string = Some (PStr s)) →
  ∃ l',
    (get_countries KeyError TypeError w).1 = Ret l' ∧
    l' ≡ₚ l ∧
    Sorted name_order l' ∧
    (∀ s, filter (has_name (PStr s)) l' = filter (has_name (PStr s)) l) ∧
    log (get_countries KeyError TypeError w).2 = log w.
Proof.
  intros Hdir Hstatus Hjson Hnames.
  rewrite get_countries_run, Hdir, Hstatus, Hjson.
  rewrite (sorted_by_name_strings l Hnames). simpl.
  exists (sort_by name_le l). split; [done|]. split; [apply sort_by_perm|].
  split; [|split; [|done]].
  - apply (sort_by_sorted name_le name_order
             (λ x, ∃ s, x !! "name"%string = Some (PStr s))).
    + intros a b [s Hs] [t Ht] Hle. exists s, t. repeat split; try done.
      unfold name_le, dict_get in Hle. by rewrite Hs, Ht in Hle.
    + intros a b [s Hs] [t Ht] Hle. exists t, s. repeat split; try done.
      unfold name_le, dict_get in Hle. rewrite Hs, Ht in Hle.
      by apply string_leb_false.
    + by apply Forall_forall.
  - intros s. apply sort_by_stable. intros a b Ha Hb.
    unfold has_name in *. unfold name_le. rewrite Ha, Hb. simpl.
    apply string_leb_refl.
Qed.

(** X19.  One bad record empties the list: when a record of the answer has
    no name, [get_countries] logs the [KeyError] and returns the empty
    list; and so it does with the [TypeError] when all records have a name
    and, of at least two, one has [None] for it. *)
Theorem get_countries_bad_record
    (w : world) (rs : http_response) (l : list dict) (x : dict) :
  directory w countries_request = Ret rs →
  rs_raise_for_status rs = None →
  rs_json rs = Ret l →
  x ∈ l →
  (x !! "name"%string = None →
   get_countries KeyError TypeError w =
     (Ret [],
      set_log (log w ++ [LogError "Failed to fetch countries" KeyError])
        (set_requests_sent (requests_sent w ++ [countries_request]) w))) ∧
  (x !! "name"%string = Some PNone →
   (∀ y, y ∈ l → is_Some (y !! "name"%string)) → (2 ≤ length l)%nat →
   get_countries KeyError TypeError w =
     (Ret [],
      set_log (log w ++ [LogError "Failed to fetch countries" TypeError])
        (set_requests_sent (requests_sent w ++ [countries_request]) w))).
Proof.
  intros Hdir Hstatus Hjson Hx.
  rewrite get_countries_run, Hdir, Hstatus, Hjson. unfold sorted_by_name.
  split.
  - intros Hnone. by rewrite (names_of_unnamed l x Hx Hnone).
  - intros Hnull Hall Hlen. rewrite (names_of_named l Hall).
    assert (PNone ∈ (λ y, dict_get y "name") <$> l) as Hin.
    { apply list_elem_of_fmap. exists x. unfold dict_get. by rewrite Hnull. }
    assert (∀ f, f PNone = false →
              forallb f ((λ y, dict_get y "name") <$> l) = false) as Hnot.
    { intros f Hf. apply not_true_is_false. intros Hall'.
      rewrite forallb_forall in Hall'.
      specialize (Hall' PNone). rewrite Hf in Hall'.
      apply diff_false_true, Hall'. by apply list_elem_of_In. }
    destruct l as [|y1 [|y2 l]]; simpl in Hlen; [lia|lia|].
    unfold comparable. rewrite !fmap_cons in *.
    by rewrite (Hnot is_str), (Hnot is_num), (Hnot is_time).
Qed.

End Countries.

Lemma get_countries_sorted_by_name_witness :
  let w := world_of DbNoTable (serving three_countries) 0 in
  ∃ l',
    (get_countries AttributeError AttributeError w).1 = Ret l' ∧
    l' ≡ₚ three_countries ∧
    Sorted name_order l' ∧
    (∀ s, filter (has_name (PStr s)) l' =
          filter (has_name (PStr s)) three_countries) ∧
    log (get_countries AttributeError AttributeError w).2 = log w.
Proof.
  intros w.
  apply (get_countries_sorted_by_name AttributeError AttributeError w
           (HttpResponse None (Ret three_countries)) three_countries);
    try reflexivity.
  intros x Hx. unfold three_countries in Hx.
  repeat (apply elem_of_cons in Hx as [->|Hx]; [by eexists|]).
  by apply elem_of_nil in Hx.
Defined.

Lemma get_countries_bad_record_witness :
  let l := [country_record "Ghana" 120; (∅ : dict)] in
  let w := world_of DbNoTable (serving l) 0 in
  get_countries AttributeError AttributeError w =
    (Ret [],
     set_log (log w ++ [LogError "Failed to fetch countries" AttributeError])
       (set_requests_sent (requests_sent w ++ [countries_request]) w)).
Proof.
  intros l w.
  destruct (get_countries_bad_record AttributeError AttributeError w
              (HttpResponse None (Ret l)) l ∅) as [H _];
    [reflexivity|reflexivity|reflexivity| |].
  - unfold l. apply list_elem_of_further, list_elem_of_here.
  - apply H. reflexivity.
Defined.

(** ** The station browser *)

Section Browser.

Variable KeyError : exn.

Lemma station_item_named (station : dict) (items : list list_item) :
  is_Some (station !! "name"%string) →
  station_item KeyError station items = (Ret (station_line station), items).
Proof.
  intros [v Hv]. unfold station_item, subscript, station_line, dict_get.
  rewrite Hv. by run.
Qed.

Lemma add_station_items_named (stations : list dict) (items : list list_item) :
  (∀ s, s ∈ stations → is_Some (s !! "name"%string)) →
  add_station_items KeyError stations items =
    (Ret tt, items ++ (station_line <$> stations)).
Proof.
  revert items. induction stations as [|s rest IH]; intros items Hall.
  - simpl. run. by rewrite app_nil_r.
  - cbn [add_station_items]. unfold mbind at 1, M_bind.
    rewrite station_item_named by (apply Hall; by left).
    unfold mbind at 1, M_bind. unfold modify at 1.
    rewrite IH by (intros; apply Hall; by right).
    by rewrite fmap_cons, <- app_assoc.
Qed.

Lemma add_station_items_unnamed
    (before after : list dict) (s : dict) (items : list list_item) :
  (∀ s', s' ∈ before → is_Some (s' !! "name"%string)) →
  s !! "name"%string = None →
  add_station_items KeyError (before ++ s :: after) items =
    (Raise KeyError, items ++ (station_line <$> before)).
Proof.
  revert items. induction before as [|s0 rest IH]; intros items Hall Hnone.
  - simpl. unfold mbind at 1, M_bind, station_item, subscript.
    rewrite Hnone. run. by rewrite app_nil_r.
  - rewrite <- app_comm_cons. cbn [add_station_items].
    unfold mbind at 1, M_bind.
    rewrite station_item_named by (apply Hall; by left).
    unfold mbind at 1, M_bind. unfold modify at 1.
    rewrite IH by (try done; intros; apply Hall; by right).
    by rewrite fmap_cons, <- app_assoc.
Qed.

Lemma load_stations_run (stations : list dict) (items : list list_item) :
  load_stations KeyError stations items =
    match stations with
    | [] => (Ret tt, [ListItem NoStationsFound false None])
    | _ :: _ => add_station_items KeyError stations []
    end.
Proof. by destruct stations. Qed.

Lemma load_stations_named (stations : list dict) (items : list list_item) :
  (∀ s, s ∈ stations → is_Some (s !! "name"%string)) →
  (load_stations KeyError stations items).1 = Ret tt ∧
  (load_stations KeyError stations items).2 =
    match stations with
    | [] => [ListItem NoStationsFound false None]
    | _ :: _ => station_line <$> stations
    end.
Proof.
  intros Hall. rewrite load_stations_run.
  destruct stations as [|s rest]; [done|].
  by rewrite add_station_items_named.
Qed.

(** X20.  [load_stations] replaces what the browser showed: for stations
    that all have a name it returns with one enabled line per station, in
    order, each carrying its station, and with the one disabled line
    [No stations found] when the list is empty; so the browser is never
    left empty. *)
Theorem load_stations_shows_every_station
    (stations : list dict) (items : list list_item) :
  (∀ s, s ∈ stations → is_Some (s !! "name"%string)) →
  (load_stations KeyError stations items).1 = Ret tt ∧
  (load_stations KeyError stations items).2 =
    match stations with
    | [] => [ListItem NoStationsFound false None]
    | _ :: _ => station_line <$> stations
    end ∧
  length (load_stations KeyError stations items).2 = max 1 (length stations).
Proof.
  intros Hall. rewrite load_stations_run.
  destruct stations as [|s rest]; [done|].
  rewrite add_station_items_named by done. simpl.
  by rewrite length_fmap.
Qed.

(** X21.  [load_stations] stops at the first station without a name: it
    raises the [KeyError], and the browser shows the lines of the stations
    before that one and nothing of what it showed before. *)
Theorem load_stations_stops_at_missing_name
    (before after : list dict) (s : dict) (items : list list_item) :
  (∀ s', s' ∈ before → is_Some (s' !! "name"%string)) →
  s !! "name"%string = None →
  load_stations KeyError (before ++ s :: after) items =
    (Raise KeyError, station_line <$> before).
Proof.
  intros Hall Hnone. rewrite load_stations_run.
  destruct (before ++ s :: after) as [|s0 l] eqn:Heq.
  - by destruct before.
  - rewrite <- Heq. by rewrite add_station_items_unnamed.
Qed.

Lemma on_country_selected_run (country : string) (a : radio_globe_app) :
  on_country_selected KeyError country a =
    match (get_stations country (core a)).1 with
    | Ret result =>
        ((load_stations KeyError result.1 (station_browser a)).1,
         RadioGlobeApp (get_stations country (core a)).2
           (load_stations KeyError result.1 (station_browser a)).2)
    | Raise e =>
        (Raise e, RadioGlobeApp (get_stations country (core a)).2 (station_browser a))
    end.
Proof.
  unfold on_country_selected, on_core, on_browser. unfold mbind, M_bind.
  destruct (get_stations country (core a)) as [[result|e] w']; simpl; [|done].
  by destruct (load_stations KeyError result.1 (station_browser a)).
Qed.

Lemma station_line_of_row (r : row) :
  station_line (dict_of_row r) =
    ListItem (StationLine (r_name r) (PStr "?") (PNum 0)) true
      (Some (dict_of_row r)).
Proof. destruct r. unfold station_line. f_equal. Qed.

(** X22.  Stations served from the cache show no bitrate and no votes: when
    the cache holds fresh rows of the country, [on_country_selected] returns
    with one line per row, and every line reads [?] for the bitrate and [0]
    for the votes, whatever the directory says of the station. *)
Theorem on_country_selected_from_cache
    (country : string) (a : radio_globe_app) (t : table) (r : row) (rows : list row) :
  cache_db (core a) = DbStations t →
  select_fresh country
    (clock (core a) (clock_reads (core a)) - cache_expiry) t = r :: rows →
  (on_country_selected KeyError country a).1 = Ret tt ∧
  station_browser (on_country_selected KeyError country a).2 =
    (λ r, ListItem (StationLine (r_name r) (PStr "?") (PNum 0)) true
            (Some (dict_of_row r))) <$> (r :: rows).
Proof.
  intros Hdb Hsel.
  assert (get_stations country (core a) =
            (Ret (dict_of_row <$> r :: rows, length (dict_of_row <$> r :: rows)),
             set_txn None (set_clock_reads (S (clock_reads (core a))) (core a))))
    as Hget.
  { rewrite fmap_cons. apply get_stations_hit.
    by rewrite _get_cached_stations_run, Hdb, Hsel. }
  rewrite on_country_selected_run, Hget. cbn [fst snd].
  destruct (load_stations_named (dict_of_row <$> r :: rows)
              (station_browser a)) as [Hres Hitems].
  { intros s Hs. apply list_elem_of_fmap in Hs as (r' & -> & _).
    exists (r_name r'). by destruct r'. }
  rewrite Hres, Hitems. split; [done|].
  cbn [station_browser]. rewrite (fmap_cons dict_of_row).
  rewrite <- (fmap_cons dict_of_row), <- list_fmap_compose.
  apply list_fmap_ext. intros i r' _. apply station_line_of_row.
Qed.

(** X23.  A failure looks like an empty country: whenever [get_stations]
    returns the empty list, be it for an error it has logged or for an empty
    answer of the directory, [on_country_selected] returns and the browser
    shows the one disabled line [No stations found]. *)
Theorem on_country_selected_nothing_to_show
    (country : string) (a : radio_globe_app) (n : nat) :
  (get_stations country (core a)).1 = Ret ([], n) →
  on_country_selected KeyError country a =
    (Ret tt,
     RadioGlobeApp (get_stations country (core a)).2
       [ListItem NoStationsFound false None]).
Proof.
  intros Hget. rewrite on_country_selected_run, Hget. cbn [fst snd].
  by rewrite load_stations_run.
Qed.

End Browser.

Lemma load_stations_shows_every_station_witness :
  (load_stations AttributeError [ghana_fm; nameless_fm] []).2 =
    [station_line ghana_fm; station_line nameless_fm] ∧
  (load_stations AttributeError [] [station_line ghana_fm]).2 =
    [ListItem NoStationsFound false None].
Proof.
  split.
  - apply (load_stations_shows_every_station AttributeError
             [ghana_fm; nameless_fm] []).
    intros s Hs.
    repeat (apply elem_of_cons in Hs as [->|Hs]; [by eexists|]).
    by apply elem_of_nil in Hs.
  - apply (load_stations_shows_every_station AttributeError []
             [station_line ghana_fm]).
    intros s Hs. by apply elem_of_nil in Hs.
Defined.

Lemma load_stations_stops_at_missing_name_witness :
  load_stations AttributeError ([ghana_fm] ++ (∅ : dict) :: [nameless_fm])
    [station_line nameless_fm] =
    (Raise AttributeError, [station_line ghana_fm]).
Proof.
  apply (load_stations_stops_at_missing_name AttributeError
           [ghana_fm] [nameless_fm] ∅).
  - intros s Hs. apply list_elem_of_singleton in Hs as ->. by eexists.
  - reflexivity.
Defined.

Lemma on_country_selected_from_cache_witness :
  let a := RadioGlobeApp
             (world_of (DbStations [ghana_row 0]) (serving [ghana_fm]) 1000) [] in
  (on_country_selected AttributeError "Ghana" a).1 = Ret tt ∧
  station_browser (on_country_selected AttributeError "Ghana" a).2 =
    [ListItem (StationLine (PStr "Ghana FM") (PStr "?") (PNum 0)) true
       (Some (dict_of_row (ghana_row 0)))].
Proof.
  intros a.
  apply (on_country_selected_from_cache AttributeError "Ghana" a
           [ghana_row 0] (ghana_row 0) []); reflexivity.
Defined.

Lemma on_country_selected_nothing_to_show_witness :
  let a := RadioGlobeApp
             (world_of (DbStations []) (failing Timeout) 0)
             [station_line ghana_fm] in
  on_country_selected AttributeError "Ghana" a =
    (Ret tt,
     RadioGlobeApp (get_stations "Ghana" (core a)).2
       [ListItem NoStationsFound false None]).
Proof.
  intros a.
  apply (on_country_selected_nothing_to_show AttributeError "Ghana" a 0).
  reflexivity.
Defined.
